(** * The OCI object-storage HA lock (physical/oci/oci_ha.go)

    A shallow embedding of the leader-election lock that Vault's OCI
    physical backend builds on conditional GET / PUT / DELETE of one
    object, and the properties of it that the design document states.

    The lock talks to three things it does not control: the wall clock,
    the UUID generator and the object store.  They are modelled by an
    environment [Env] of answers, indexed by how many times each facility
    has been called so far; a run of a method threads the [Lock] value and
    the call counters, and collects the remote requests it issues (with the
    answers it got) as a list of events.  Every theorem quantifies over the
    whole environment, that is over every behaviour of clock, generator and
    store, a success of the store always coming with its ETag.  Logging and
    metrics are left out. *)

From Stdlib Require Import ZArith List String Bool Lia.
Import ListNotations.
Local Open Scope string_scope.
Local Open Scope Z_scope.

(** ** Go's [error], [time] and channels *)

Inductive error : Type :=
| errors_New (msg : string)
| errwrap_Wrapf (format : string) (inner : error)
  (* the format is fmt.Sprintf(format, arg) with a %q verb; kept unformatted *)
| errwrap_Wrapf_q (format arg : string) (inner : error).

(** A Go call that returns [(T, error)]. *)
Inductive goresult (A : Type) : Type :=
| Ok (a : A)
| Err (e : error).
Arguments Ok {A} a.
Arguments Err {A} e.

Module time.
(** An instant is its wall-clock reading in nanoseconds: every instant the
    lock keeps went through [UTC()], which drops the monotonic reading. *)
Definition Time := Z.
(** [time.Duration] is an int64 count of nanoseconds. *)
Definition Duration := Z.

Definition Millisecond : Duration := 1000000.
Definition Second : Duration := 1000 * Millisecond.

Definition minDuration : Duration := - 2 ^ 63.
Definition maxDuration : Duration := 2 ^ 63 - 1.

(** [t.Sub(u)]: the difference, saturated to the range of a Duration. *)
Definition Sub (t u : Time) : Duration :=
  if t - u <? minDuration then minDuration
  else if maxDuration <? t - u then maxDuration
  else t - u.

(** [t.UTC()] is the same instant. *)
Definition UTC (t : Time) : Time := t.
End time.

(** The state of a [chan struct{}] that is only ever closed. *)
Inductive chan : Type :=
| nil_chan      (* the zero value: never ready, close panics *)
| open_chan     (* made, not closed *)
| closed_chan.  (* closed: always ready *)

Definition is_closed (ch : chan) : bool :=
  match ch with closed_chan => true | _ => false end.

(** ** Constants (oci_ha.go, lines 30-56) *)

Definition LockRenewInterval : time.Duration := 3 * time.Second.
Definition LockRetryInterval : time.Duration := 5 * time.Second.
Definition LockWatchRetryInterval : time.Duration := 2 * time.Second.
Definition LockTTL : time.Duration := 15 * time.Second.
Definition LockWatchRetryMax : Z := 4.
Definition LockCacheMinAcceptableAge : time.Duration := 45 * time.Second.
Definition LockWriteRetriesOnFailures : nat := 4.
Definition ObjectStorageCallsReadTimeout : time.Duration := 3 * time.Second.
Definition ObjectStorageCallsWriteTimeout : time.Duration := 3 * time.Second.

Definition http_StatusNotFound : Z := 404.

(** ** Data (lines 58-102) *)

Record LockRecord : Type := mkLockRecord {
  Key : string;
  Value : string;
  Identity : string
}.

Record LockCache : Type := mkLockCache {
  etag : string;
  lastUpdate : time.Time;
  lockRecord : option LockRecord     (* *LockRecord, nil on a 404 *)
}.

(** The part of [Backend] the lock reads. *)
Record Backend : Type := mkBackend {
  namespaceName : string;
  lockBucketName : string;
  haEnabled : bool
}.

Record Lock : Type := mkLock {
  backend : Backend;
  key : string;
  value : string;
  held : bool;
  identity : string;
  stopCh : chan;
  stopped : bool;
  lockRecordCache : option LockCache;   (* atomic.Value, nil until stored *)
  renewInterval : time.Duration;
  retryInterval : time.Duration;
  ttl : time.Duration;
  watchRetryInterval : time.Duration;
  watchRetryMax : Z
}.

Definition set_held (b : bool) (l : Lock) : Lock :=
  mkLock (backend l) (key l) (value l) b (identity l) (stopCh l) (stopped l)
         (lockRecordCache l) (renewInterval l) (retryInterval l) (ttl l)
         (watchRetryInterval l) (watchRetryMax l).

Definition set_stopCh (ch : chan) (l : Lock) : Lock :=
  mkLock (backend l) (key l) (value l) (held l) (identity l) ch (stopped l)
         (lockRecordCache l) (renewInterval l) (retryInterval l) (ttl l)
         (watchRetryInterval l) (watchRetryMax l).

Definition set_stopped (b : bool) (l : Lock) : Lock :=
  mkLock (backend l) (key l) (value l) (held l) (identity l) (stopCh l) b
         (lockRecordCache l) (renewInterval l) (retryInterval l) (ttl l)
         (watchRetryInterval l) (watchRetryMax l).

Definition set_lockRecordCache (c : option LockCache) (l : Lock) : Lock :=
  mkLock (backend l) (key l) (value l) (held l) (identity l) (stopCh l)
         (stopped l) c (renewInterval l) (retryInterval l) (ttl l)
         (watchRetryInterval l) (watchRetryMax l).

(** ** The object-store SDK: requests and responses *)

Module objectstorage.
Record GetObjectRequest : Type := mkGetObjectRequest {
  get_NamespaceName : string;
  get_BucketName : string;
  get_ObjectName : string;
  get_OpcClientRequestId : string
}.

(** [PutObjectBody] is an [io.ReadCloser]: a reader that gives its bytes
    once.  The field holds what the reader still has to give at the moment
    the request is handed to the client. *)
Record PutObjectRequest : Type := mkPutObjectRequest {
  NamespaceName : string;
  BucketName : string;
  ObjectName : string;
  ContentLength : Z;
  PutObjectBody : string;
  IfMatch : option string;        (* *string, nil when not set *)
  IfNoneMatch : option string;
  OpcClientRequestId : string
}.

(** The request once the client has sent it: the client has read the body
    to its end, and the reader, which nothing rewinds, has no byte left;
    the other fields are as they were, [ContentLength] included. *)
Definition drained (putRequest : PutObjectRequest) : PutObjectRequest :=
  mkPutObjectRequest (NamespaceName putRequest) (BucketName putRequest)
    (ObjectName putRequest) (ContentLength putRequest) ""
    (IfMatch putRequest) (IfNoneMatch putRequest) (OpcClientRequestId putRequest).

Record DeleteObjectRequest : Type := mkDeleteObjectRequest {
  del_NamespaceName : string;
  del_BucketName : string;
  del_ObjectName : string;
  del_IfMatch : option string;
  del_OpcClientRequestId : string
}.

(** What a call hands back.  With [err == nil] the SDK supplies the ETag
    (and, for a GET, the content stream, which [ioutil.ReadAll] may still
    fail to read); with [err != nil] the raw HTTP response is either
    absent (transport failure, timeout, cancelled context) or carries a
    status code.  A success without the ETag header is not among the
    answers: lines 415 and 510 read [*response.ETag] unguarded, and the
    runs below say nothing of a store that answers so. *)
Inductive GetObjectResponse : Type :=
| GetObject_ok (Content : goresult string) (ETag : string)
| GetObject_err (e : error) (RawResponse : option Z).

Inductive PutObjectResponse : Type :=
| PutObject_ok (ETag : string)
| PutObject_err (e : error) (RawResponse : option Z).

Inductive DeleteObjectResponse : Type :=
| DeleteObject_ok
| DeleteObject_err (e : error).
End objectstorage.
Import objectstorage.

(** ** The environment *)

(** What a blocking [select] between a ticker and a stop channel yields. *)
Inductive Wake : Type :=
| TickerFired
| StopClosed.

(** What the other goroutines of the same lock may have done to the shared
    fields when this one looks at them: [Unlock] (or the watch loop) closes
    [stopCh] under [stopLock]; the renew loop's [writeLock] stores a cache. *)
Inductive Foreign : Type :=
| Quiet
| ForeignStop
| ForeignStore (c : LockCache).

(** The answers of the world outside the lock.  The two codec functions
    stand for [encoding/json] on [LockRecord]; the others give the answer to
    the [n]-th call of a facility: the [n]-th reading of the clock that the
    lock logic makes (the readings taken for metrics are left out), the
    [n]-th UUID, the answer to the [n]-th GET, PUT or DELETE, the outcome of
    the [n]-th blocking [select], and what other goroutines did before the
    [n]-th yield. *)
Record Env : Type := mkEnv {
  json_Marshal : LockRecord -> goresult string;
  json_Unmarshal : string -> goresult LockRecord;
  time_Now : nat -> time.Time;
  uuid_GenerateUUID : nat -> goresult string;
  client_GetObject : nat -> GetObjectResponse;
  client_PutObject : nat -> PutObjectResponse;
  client_DeleteObject : nat -> DeleteObjectResponse;
  select_wake : nat -> Wake;
  other_goroutines : nat -> Foreign
}.

(** How many answers of each kind have been consumed. *)
Record Cursor : Type := mkCursor {
  n_now : nat;
  n_uuid : nat;
  n_get : nat;
  n_put : nat;
  n_delete : nat;
  n_select : nat;
  n_yield : nat
}.

Definition start : Cursor := mkCursor 0 0 0 0 0 0 0.

Inductive Event : Type :=
| EvGetObject (req : GetObjectRequest) (resp : GetObjectResponse)
| EvPutObject (req : PutObjectRequest) (resp : PutObjectResponse)
| EvDeleteObject (req : DeleteObjectRequest) (resp : DeleteObjectResponse)
| EvSleep (d : time.Duration)
| EvClose                      (* close(l.stopCh) *)
| EvGo (name : string).        (* go l.name() *)

(** ** Runs *)

(** How a run ends.  The panics are those that the lock's own logic can
    raise on the answers above: the dereference of a nil cache snapshot
    (lines 458 and 494) and the close of a nil or closed channel. *)
Inductive exec (A : Type) : Type :=
| Done (a : A)
| Panic (msg : string)
| OutOfFuel.
Arguments Done {A} a.
Arguments Panic {A} msg.
Arguments OutOfFuel {A}.

Record Run (A : Type) : Type := mkRun {
  outcome : exec A;
  final : Lock;
  cursor : Cursor;
  events : list Event
}.
Arguments mkRun {A} _ _ _ _.
Arguments outcome {A} _.
Arguments final {A} _.
Arguments cursor {A} _.
Arguments events {A} _.

Definition M (A : Type) : Type := Lock -> Cursor -> Run A.

Definition ret {A} (a : A) : M A := fun l c => mkRun (Done a) l c [].

Definition bind {A B} (m : M A) (f : A -> M B) : M B := fun l c =>
  match m l c with
  | mkRun (Done a) l1 c1 e1 =>
      match f a l1 c1 with
      | mkRun o l2 c2 e2 => mkRun o l2 c2 (e1 ++ e2)
      end
  | mkRun (Panic msg) l1 c1 e1 => mkRun (Panic msg) l1 c1 e1
  | mkRun OutOfFuel l1 c1 e1 => mkRun OutOfFuel l1 c1 e1
  end.

Declare Scope go_scope.
Delimit Scope go_scope with go.
Notation "x <- m ;; k" := (bind m (fun x => k))
  (at level 61, m at next level, right associativity) : go_scope.
Notation "m ;; k" := (bind m (fun _ => k))
  (at level 61, right associativity) : go_scope.
Notation "' pat <- m ;; k" := (bind m (fun x => match x with pat => k end))
  (at level 61, pat pattern, m at next level, right associativity) : go_scope.
Local Open Scope go_scope.

Definition panic {A} (msg : string) : M A := fun l c => mkRun (Panic msg) l c [].
Definition out_of_fuel {A} : M A := fun l c => mkRun OutOfFuel l c [].
Definition this : M Lock := fun l c => mkRun (Done l) l c [].
Definition modify (f : Lock -> Lock) : M unit := fun l c => mkRun (Done tt) (f l) c [].
Definition emit (e : Event) : M unit := fun l c => mkRun (Done tt) l c [e].

Definition bump_now (c : Cursor) : Cursor :=
  mkCursor (S (n_now c)) (n_uuid c) (n_get c) (n_put c) (n_delete c) (n_select c) (n_yield c).
Definition bump_uuid (c : Cursor) : Cursor :=
  mkCursor (n_now c) (S (n_uuid c)) (n_get c) (n_put c) (n_delete c) (n_select c) (n_yield c).
Definition bump_get (c : Cursor) : Cursor :=
  mkCursor (n_now c) (n_uuid c) (S (n_get c)) (n_put c) (n_delete c) (n_select c) (n_yield c).
Definition bump_put (c : Cursor) : Cursor :=
  mkCursor (n_now c) (n_uuid c) (n_get c) (S (n_put c)) (n_delete c) (n_select c) (n_yield c).
Definition bump_delete (c : Cursor) : Cursor :=
  mkCursor (n_now c) (n_uuid c) (n_get c) (n_put c) (S (n_delete c)) (n_select c) (n_yield c).
Definition bump_select (c : Cursor) : Cursor :=
  mkCursor (n_now c) (n_uuid c) (n_get c) (n_put c) (n_delete c) (S (n_select c)) (n_yield c).
Definition bump_yield (c : Cursor) : Cursor :=
  mkCursor (n_now c) (n_uuid c) (n_get c) (n_put c) (n_delete c) (n_select c) (S (n_yield c)).

(** [stopLock.Lock(); if !stopped { stopped = true; close(stopCh) }], when it
    is another goroutine that runs it. *)
Definition foreign_stop (l : Lock) : Lock :=
  match stopCh l, stopped l with
  | open_chan, false => set_stopCh closed_chan (set_stopped true l)
  | _, _ => l
  end.

(** Line 446, [(lockRecordCache == nil) || lockRecordCache.etag != currentEtag]:
    the snapshot is replaced when there is none or when the ETag read
    differs from the cached one. *)
Definition refreshes (snapshot : option LockCache) (tag : string) : bool :=
  match snapshot with
  | None => true
  | Some lc => negb (String.eqb (etag lc) tag)
  end.

Section Methods.

Variable env : Env.

(** *** Calls into the environment *)

Definition Now : M time.Time := fun l c =>
  mkRun (Done (time_Now env (n_now c))) l (bump_now c) [].

Definition GenerateUUID : M (goresult string) := fun l c =>
  mkRun (Done (uuid_GenerateUUID env (n_uuid c))) l (bump_uuid c) [].

Definition GetObject (req : GetObjectRequest) : M GetObjectResponse := fun l c =>
  let resp := client_GetObject env (n_get c) in
  mkRun (Done resp) l (bump_get c) [EvGetObject req resp].

Definition PutObject (req : PutObjectRequest) : M PutObjectResponse := fun l c =>
  let resp := client_PutObject env (n_put c) in
  mkRun (Done resp) l (bump_put c) [EvPutObject req resp].

Definition DeleteObject (req : DeleteObjectRequest) : M DeleteObjectResponse := fun l c =>
  let resp := client_DeleteObject env (n_delete c) in
  mkRun (Done resp) l (bump_delete c) [EvDeleteObject req resp].

Definition time_Sleep (d : time.Duration) : M unit := emit (EvSleep d).

(** [close(l.stopCh)] *)
Definition close_stopCh : M unit := fun l c =>
  match stopCh l with
  | open_chan => mkRun (Done tt) (set_stopCh closed_chan l) c [EvClose]
  | nil_chan => mkRun (Panic "close of nil channel") l c []
  | closed_chan => mkRun (Panic "close of closed channel") l c []
  end.

(** A point at which this goroutine reads fields that others write. *)
Definition yield : M unit := fun l c =>
  let l' := match other_goroutines env (n_yield c) with
            | Quiet => l
            | ForeignStop => foreign_stop l
            | ForeignStore lc => set_lockRecordCache (Some lc) l
            end in
  mkRun (Done tt) l' (bump_yield c) [].

(** [select { case <-ticker.C: ... case <-l.stopCh: ... }].  A nil channel
    is never ready; when the stop case is taken and this goroutine had not
    seen the channel closed, another goroutine closed it meanwhile. *)
Definition select_ticker_stopCh : M Wake := fun l c =>
  match stopCh l, select_wake env (n_select c) with
  | nil_chan, _ => mkRun (Done TickerFired) l (bump_select c) []
  | _, TickerFired => mkRun (Done TickerFired) l (bump_select c) []
  | _, StopClosed => mkRun (Done StopClosed) (foreign_stop l) (bump_select c) []
  end.

(** The same [select] on the caller's channel (the argument of [Lock]). *)
Definition select_ticker_cancel : M Wake := fun l c =>
  mkRun (Done (select_wake env (n_select c))) l (bump_select c) [].

(** *** LockWith (lines 116-134) *)

Definition LockWith (b : Backend) (key value : string) (c : Cursor)
  : goresult Lock * Cursor :=
  match uuid_GenerateUUID env (n_uuid c) with
  | Err e => (Err (errwrap_Wrapf "Lock with: {{err}}" e), bump_uuid c)
  | Ok identity =>
      (Ok (mkLock b key value false identity nil_chan true None
                  LockRenewInterval LockRetryInterval LockTTL
                  LockWatchRetryInterval LockWatchRetryMax),
       bump_uuid c)
  end.

(** *** loadLockRecordCache (lines 213-219) *)

Definition loadLockRecordCache : M (option LockCache) := fun l c =>
  mkRun (Done (lockRecordCache l)) l c [].

(** [l.lockRecordCache.Store(&LockCache{...})] *)
Definition storeLockRecordCache (lc : LockCache) : M unit :=
  modify (set_lockRecordCache (Some lc)).

(** The test that both [watchLock] (lines 255-258) and [writeLock]
    (lines 437-439) make on a snapshot of the cache:
    [cache == nil || cache.lockRecord == nil ||
     cache.lockRecord.Identity != l.identity ||
     time.Now().Sub(cache.lastUpdate) > l.ttl].
    The clock is read only when the first three disjuncts are false. *)
Definition cacheNotOwnedOrStale (snapshot : option LockCache) : M bool :=
  l <- this ;;
  match snapshot with
  | None => ret true
  | Some lc =>
      match lockRecord lc with
      | None => ret true
      | Some r =>
          if negb (String.eqb (Identity r) (identity l)) then ret true
          else
            now <- Now ;;
            ret (ttl l <? time.Sub now (lastUpdate lc))
      end
  end.

(** *** get (lines 362-416) *)

Definition get : M (option LockRecord * string * option error) :=
  l <- this ;;
  u <- GenerateUUID ;;
  match u with
  | Err e => ret (None, "", Some (errwrap_Wrapf "failed to generate UUID: {{err}}" e))
  | Ok opcClientRequestId =>
      let request :=
        mkGetObjectRequest (namespaceName (backend l)) (lockBucketName (backend l))
                           (key l) opcClientRequestId in
      response <- GetObject request ;;
      match response with
      | GetObject_err e raw =>
          match raw with
          | Some StatusCode =>
              if StatusCode =? http_StatusNotFound then ret (None, "", None)
              else ret (None, "",
                        Some (errwrap_Wrapf_q "failed to read Value for %q: {{err}}" (key l) e))
          | None =>
              ret (None, "",
                   Some (errwrap_Wrapf_q "failed to read Value for %q: {{err}}" (key l) e))
          end
      | GetObject_ok content ETag =>
          match content with
          | Err e =>
              ret (None, "", Some (errwrap_Wrapf "failed to decode Value into bytes: {{err}}" e))
          | Ok body =>
              match json_Unmarshal env body with
              | Err e =>
                  ret (None, "",
                       Some (errwrap_Wrapf_q "failed to read Value for %q: {{err}}" (key l) e))
              | Ok lockRecord => ret (Some lockRecord, ETag, None)
              end
          end
      end
  end.

(** *** writeLock (lines 418-550) *)

(** Lines 441-455, the secondary's read: GET, then store a new cache entry
    when there was none or the ETag moved, and reload the snapshot.  It
    hands back the error of the GET, or the record read and the snapshot
    to go on with. *)
Definition writeLock_read (lockRecordCache : option LockCache)
  : M (error + option LockRecord * option LockCache) :=
  '(currentLockRecord, currentEtag, err) <- get ;;
  match err with
  | Some e => ret (inl (errwrap_Wrapf "error reading lock record: {{err}}" e))
  | None =>
      if refreshes lockRecordCache currentEtag then
        now <- Now ;;
        storeLockRecordCache (mkLockCache currentEtag (time.UTC now) currentLockRecord) ;;
        lockRecordCache' <- loadLockRecordCache ;;
        ret (inr (currentLockRecord, lockRecordCache'))
      else ret (inr (currentLockRecord, lockRecordCache))
  end.

(** Line 458, the freshness gate:
    [currentLockRecord != nil &&
     time.Now().Sub(lockRecordCache.lastUpdate) < LockCacheMinAcceptableAge]. *)
Definition writeLock_gate (currentLockRecord : option LockRecord)
           (lockRecordCache : option LockCache) : M bool :=
  match currentLockRecord with
  | None => ret false
  | Some _ =>
      now <- Now ;;
      match lockRecordCache with
      | None => panic "nil pointer dereference: lockRecordCache.lastUpdate"
      | Some lc => ret (time.Sub now (lastUpdate lc) <? LockCacheMinAcceptableAge)
      end
  end.

(** Lines 436-462: either the call returns here ([inl]), or it goes on to
    the PUT with a snapshot of the cache ([inr]). *)
Definition writeLock_inspect : M (bool * option error + option LockCache) :=
  lockRecordCache <- loadLockRecordCache ;;
  secondary <- cacheNotOwnedOrStale lockRecordCache ;;
  if secondary then
    r <- writeLock_read lockRecordCache ;;
    match r with
    | inl e => ret (inl (false, Some e))
    | inr (currentLockRecord, lockRecordCache') =>
        tooYoung <- writeLock_gate currentLockRecord lockRecordCache' ;;
        if tooYoung then ret (inl (false, None))
        else ret (inr lockRecordCache')
    end
  else ret (inr lockRecordCache).

(** Lines 494-499: the precondition of the PUT. *)
Definition with_precondition (cachedEtag : string) (putRequest : PutObjectRequest)
  : PutObjectRequest :=
  if String.eqb cachedEtag "" then
    mkPutObjectRequest (NamespaceName putRequest) (BucketName putRequest)
      (ObjectName putRequest) (ContentLength putRequest) (PutObjectBody putRequest)
      (IfMatch putRequest) (Some "*") (OpcClientRequestId putRequest)
  else
    mkPutObjectRequest (NamespaceName putRequest) (BucketName putRequest)
      (ObjectName putRequest) (ContentLength putRequest) (PutObjectBody putRequest)
      (Some cachedEtag) (IfNoneMatch putRequest) (OpcClientRequestId putRequest).

(** Lines 501-534: [for i := 1; i <= LockWriteRetriesOnFailures; i++].
    [left] counts the iterations still allowed; [err] and [newtEtag] are
    the two variables the loop assigns.  Every iteration passes the one
    [putRequest] built before the loop, and with it the one body reader of
    line 489, [ioutil.NopCloser(bytes.NewReader(newLockRecordJson))]: the
    attempt that follows a 5xx finds that reader already read. *)
Fixpoint writeLock_putLoop (left : nat) (i : Z) (putRequest : PutObjectRequest)
         (err : option error) (newtEtag : string) : M (option error * string) :=
  match left with
  | O => ret (err, newtEtag)
  | S left' =>
      putObjectResponse <- PutObject putRequest ;;
      match putObjectResponse with
      | PutObject_ok ETag => ret (err, ETag)
      | PutObject_err putObjectError raw =>
          match raw with
          | None => ret (Some putObjectError, newtEtag)
          | Some StatusCode =>
              if Z.quot StatusCode 100 =? 5 then
                time_Sleep (100 * i * time.Millisecond) ;;
                writeLock_putLoop left' (i + 1) (drained putRequest)
                                  (Some putObjectError) newtEtag
              else ret (Some putObjectError, newtEtag)
          end
      end
  end.

(** Lines 464-549. *)
Definition writeLock_put (lockRecordCache : option LockCache) : M (bool * option error) :=
  l <- this ;;
  let newLockRecord := mkLockRecord (key l) (value l) (identity l) in
  match json_Marshal env newLockRecord with
  | Err e => ret (false, Some (errwrap_Wrapf "error reading lock record: {{err}}" e))
  | Ok newLockRecordJson =>
      u <- GenerateUUID ;;
      match u with
      | Err e => ret (false, Some (errwrap_Wrapf "failed to generate UUID" e))
      | Ok opcClientRequestId =>
          let size := Z.of_nat (String.length newLockRecordJson) in
          let putRequest :=
            mkPutObjectRequest (namespaceName (backend l)) (lockBucketName (backend l))
              (key l) size newLockRecordJson None None opcClientRequestId in
          match lockRecordCache with
          | None => panic "nil pointer dereference: lockRecordCache.etag"
          | Some lc =>
              '(err, newtEtag) <-
                writeLock_putLoop LockWriteRetriesOnFailures 1
                  (with_precondition (etag lc) putRequest) None "" ;;
              match err with
              | Some e => ret (false, Some (errwrap_Wrapf "write lock: {{err}}" e))
              | None =>
                  now <- Now ;;
                  storeLockRecordCache
                    (mkLockCache newtEtag (time.UTC now) (Some newLockRecord)) ;;
                  ret (true, None)
              end
          end
      end
  end.

Definition writeLock : M (bool * option error) :=
  r <- writeLock_inspect ;;
  match r with
  | inl early => ret early
  | inr lockRecordCache => writeLock_put lockRecordCache
  end.

(** *** attemptLock (lines 174-195) *)

(** [fuel] bounds the number of turns of the [for] loop. *)
Fixpoint attemptLock (fuel : nat) : M (bool * option error) :=
  match fuel with
  | O => out_of_fuel
  | S fuel' =>
      w <- select_ticker_cancel ;;
      match w with
      | TickerFired =>
          '(acquired, err) <- writeLock ;;
          match err with
          | Some e => ret (false, Some (errwrap_Wrapf "attempt lock: {{err}}" e))
          | None => if negb acquired then attemptLock fuel' else ret (true, None)
          end
      | StopClosed => ret (false, None)
      end
  end.

(** *** Lock (lines 136-169) *)

Definition Lock_Lock (fuel : nat) : M (chan * option error) :=
  l <- this ;;
  if held l then ret (nil_chan, Some (errors_New "lock already held"))
  else
    '(acquired, err) <- attemptLock fuel ;;
    match err with
    | Some e => ret (nil_chan, Some (errwrap_Wrapf "lock: {{err}}" e))
    | None =>
        if negb acquired then ret (nil_chan, None)
        else
          modify (set_held true) ;;
          modify (set_stopCh open_chan) ;;      (* l.stopCh = make(chan struct{}) *)
          modify (set_stopped false) ;;
          emit (EvGo "renewLock") ;;
          emit (EvGo "watchLock") ;;
          l' <- this ;;
          ret (stopCh l', None)
    end.

(** *** renewLock (lines 198-211) *)

Fixpoint renewLock (fuel : nat) : M unit :=
  match fuel with
  | O => out_of_fuel
  | S fuel' =>
      w <- select_ticker_stopCh ;;
      match w with
      | TickerFired => writeLock ;; renewLock fuel'
      | StopClosed => ret tt
      end
  end.

(** *** watchLock (lines 225-289) *)

(** How one turn of the [OUTER] loop ends: [break OUTER], or on to the next
    turn with this value of [retries]. *)
Inductive turn : Type :=
| Break
| Next (retries : Z).

(** Lines 233-279, one turn. *)
Definition watchLock_turn (retries : Z) : M turn :=
  yield ;;
  l <- this ;;
  (* select { case <-l.stopCh: break OUTER; default: } *)
  if is_closed (stopCh l) then ret Break
  else if watchRetryMax l - 1 <=? retries then ret Break
  else
    w <- select_ticker_stopCh ;;
    match w with
    | StopClosed => ret Break
    | TickerFired =>
        yield ;;
        lockRecordCache <- loadLockRecordCache ;;
        unusable <- cacheNotOwnedOrStale lockRecordCache ;;
        if unusable then ret Break
        else
          '(lockRecord, _, err) <- get ;;
          match err with
          | Some _ => ret (Next (retries + 1))
          | None =>
              match lockRecord with
              | None => ret Break
              | Some r =>
                  if negb (String.eqb (Identity r) (identity l)) then ret Break
                  else ret (Next 0)
              end
          end
    end.

Fixpoint watchLock_loop (fuel : nat) (retries : Z) : M unit :=
  match fuel with
  | O => out_of_fuel
  | S fuel' =>
      t <- watchLock_turn retries ;;
      match t with
      | Break => ret tt
      | Next retries' => watchLock_loop fuel' retries'
      end
  end.

(** Lines 282-288 and, in [Unlock], lines 302-307. *)
Definition stop : M unit :=
  l <- this ;;
  if negb (stopped l) then
    modify (set_stopped true) ;;
    close_stopCh
  else ret tt.

Definition watchLock (fuel : nat) : M unit :=
  watchLock_loop fuel 0 ;;
  yield ;;
  stop.

(** *** Unlock (lines 291-345) *)

Definition Unlock : M (option error) :=
  l <- this ;;
  if negb (held l) then ret None
  else
    stop ;;
    modify (set_held false) ;;
    '(currentLockRecord, etag, err) <- get ;;
    match err with
    | Some e => ret (Some (errwrap_Wrapf "error reading lock record: {{err}}" e))
    | None =>
        match currentLockRecord with
        | None => ret None
        | Some r =>
            if String.eqb (Identity r) (identity l) then
              u <- GenerateUUID ;;
              match u with
              | Err e => ret (Some (errwrap_Wrapf "failed to generate UUID: {{err}}" e))
              | Ok opcClientRequestId =>
                  let request :=
                    mkDeleteObjectRequest (namespaceName (backend l))
                      (lockBucketName (backend l)) (key l) (Some etag)
                      opcClientRequestId in
                  response <- DeleteObject request ;;
                  match response with
                  | DeleteObject_err e => ret (Some (errwrap_Wrapf "write lock: {{err}}" e))
                  | DeleteObject_ok => ret None
                  end
              end
            else ret None
        end
    end.

(** *** Value (lines 347-359) *)

Definition Lock_Value : M (bool * string * option error) :=
  '(lockRecord, _, err) <- get ;;
  match err with
  | Some e => ret (false, "", Some e)
  | None =>
      match lockRecord with
      | None => ret (false, "", None)
      | Some r => ret (true, Value r, None)
      end
  end.

End Methods.

(** [HAEnabled] (lines 111-113) *)
Definition HAEnabled (b : Backend) : bool := haEnabled b.

(** ** Reading runs *)

(** The events [evs] happened, then the run [r]. *)
Definition prepend {A} (evs : list Event) (r : Run A) : Run A :=
  mkRun (outcome r) (final r) (cursor r) (evs ++ events r).

Definition is_get (e : Event) : bool :=
  match e with EvGetObject _ _ => true | _ => false end.
Definition is_put (e : Event) : bool :=
  match e with EvPutObject _ _ => true | _ => false end.
Definition is_delete (e : Event) : bool :=
  match e with EvDeleteObject _ _ => true | _ => false end.
Definition is_close (e : Event) : bool :=
  match e with EvClose => true | _ => false end.

Definition count (p : Event -> bool) (evs : list Event) : nat :=
  List.length (List.filter p evs).

(** No event of the kind [p] among [evs]. *)
Definition none (p : Event -> bool) (evs : list Event) : Prop :=
  forall e, In e evs -> p e = false.

(** The state of [stopCh] and [stopped] that the methods keep: [LockWith]
    leaves a nil channel marked stopped on a lock that is not held; [Lock]
    makes the channel and clears the mark; closing sets the mark. *)
Definition well_formed (l : Lock) : bool :=
  match stopCh l, stopped l with
  | open_chan, false => true
  | closed_chan, true => true
  | nil_chan, true => negb (held l)
  | _, _ => false
  end.

(** A test may overwrite the durations of a lock it has built ("Allow
    modifying the Lock durations for ease of unit testing", line 90). *)
Definition set_ttl (d : time.Duration) (l : Lock) : Lock :=
  mkLock (backend l) (key l) (value l) (held l) (identity l) (stopCh l)
         (stopped l) (lockRecordCache l) (renewInterval l) (retryInterval l) d
         (watchRetryInterval l) (watchRetryMax l).

(** The PUT answers that [writeLock] retries: an HTTP response whose status
    is 5xx. *)
Definition is_5xx (resp : PutObjectResponse) : bool :=
  match resp with
  | PutObject_err _ (Some StatusCode) => Z.quot StatusCode 100 =? 5
  | _ => false
  end.

(** The shape of the PUT attempts of one [writeLock], from attempt number
    [i] on, [req] being the request as attempt [i] hands it to the client:
    an attempt answered by 5xx is followed by a sleep of [100 ms * i] and,
    while [i] is below [LockWriteRetriesOnFailures], by attempt [i + 1],
    which passes the same request with its body already read; any other
    answer ends them. *)
Inductive put_attempts : PutObjectRequest -> Z -> list Event -> Prop :=
| attempts_end req i resp :
    1 <= i <= Z.of_nat LockWriteRetriesOnFailures ->
    is_5xx resp = false ->
    put_attempts req i [EvPutObject req resp]
| attempts_retry req i resp rest :
    1 <= i < Z.of_nat LockWriteRetriesOnFailures ->
    is_5xx resp = true ->
    put_attempts (drained req) (i + 1) rest ->
    put_attempts req i
      (EvPutObject req resp :: EvSleep (100 * i * time.Millisecond) :: rest)
| attempts_exhausted req i resp :
    i = Z.of_nat LockWriteRetriesOnFailures ->
    is_5xx resp = true ->
    put_attempts req i
      [EvPutObject req resp; EvSleep (100 * i * time.Millisecond)].

(** [r] is [req] but for the bytes its body reader has left. *)
Definition same_headers (req r : PutObjectRequest) : Prop :=
  NamespaceName r = NamespaceName req /\ BucketName r = BucketName req /\
  ObjectName r = ObjectName req /\ ContentLength r = ContentLength req /\
  IfMatch r = IfMatch req /\ IfNoneMatch r = IfNoneMatch req /\
  OpcClientRequestId r = OpcClientRequestId req.

(** The record that a lock writes for itself (lines 464-468). *)
Definition own_record (l : Lock) : LockRecord :=
  mkLockRecord (key l) (value l) (identity l).

(** The request that [writeLock] builds before it picks the precondition
    (lines 484-492). *)
Definition bare_request (l : Lock) (body id : string) : PutObjectRequest :=
  mkPutObjectRequest (namespaceName (backend l)) (lockBucketName (backend l))
    (key l) (Z.of_nat (String.length body)) body None None id.

(** [l'] is [l] with, at most, another cache entry. *)
Definition same_but_cache (l l' : Lock) : Prop :=
  l' = set_lockRecordCache (lockRecordCache l') l.

(** What [stop] adds to the trace. *)
Definition closes (l : Lock) : list Event :=
  if stopped l then [] else [EvClose].

(** The answers [get] can give, with the events that produce them: no
    request at all when no UUID could be drawn, a failed read, a 404 (no
    record, empty ETag, no error), or a record decoded from the body. *)
Inductive get_answer (env : Env)
  : option LockRecord * string * option error -> list Event -> Prop :=
| get_no_uuid e :
    get_answer env (None, "", Some e) []
| get_failed req resp e :
    get_answer env (None, "", Some e) [EvGetObject req resp]
| get_absent req e :
    get_answer env (None, "", None)
               [EvGetObject req (GetObject_err e (Some http_StatusNotFound))]
| get_found req body ETag r :
    json_Unmarshal env body = Ok r ->
    get_answer env (Some r, ETag, None)
               [EvGetObject req (GetObject_ok (Ok body) ETag)].

(** Whether the answer of the store to a GET makes [get] return an error:
    anything but a readable, decodable body or a 404. *)
Definition get_fails (env : Env) (resp : GetObjectResponse) : bool :=
  match resp with
  | GetObject_ok (Ok body) _ =>
      match json_Unmarshal env body with
      | Ok _ => false
      | Err _ => true
      end
  | GetObject_ok (Err _) _ => true
  | GetObject_err _ (Some StatusCode) => negb (StatusCode =? http_StatusNotFound)
  | GetObject_err _ None => true
  end.

(** ** Scenarios

    Concrete environments and locks, used where a statement is shown to
    hold, or to fail, on an actual run. *)

Module Scenario.

(** A stand-in for the JSON codec: the body of a record is its identity. *)
Definition marshal (r : LockRecord) : goresult string := Ok (Identity r).
Definition unmarshal (body : string) : goresult LockRecord :=
  Ok (mkLockRecord "core/lock" "https://10.0.0.1:8200" body).

(** The clock advances one second per reading. *)
Definition clock (n : nat) : time.Time := Z.of_nat n * time.Second.

(** The first UUID names the instance, the later ones name requests. *)
Definition uuids (n : nat) : goresult string :=
  Ok (match n with O => "instance-A" | _ => "request" end).

Definition not_found : GetObjectResponse :=
  GetObject_err (errors_New "404 Not Found") (Some 404).
Definition ticks (n : nat) : Wake := TickerFired.
Definition alone (n : nat) : Foreign := Quiet.

Definition oci : Backend := mkBackend "ns" "vault-lock" true.

(** An empty bucket and a store that answers. *)
Definition cold : Env :=
  mkEnv marshal unmarshal clock uuids
        (fun _ => not_found) (fun _ => PutObject_ok "etag-1")
        (fun _ => DeleteObject_ok) ticks alone.

(** Another instance holds the lock. *)
Definition incumbent : Env :=
  mkEnv marshal unmarshal clock uuids
        (fun _ => GetObject_ok (Ok "instance-B") "etag-7")
        (fun _ => PutObject_ok "etag-8")
        (fun _ => DeleteObject_ok) ticks alone.

(** The lock is acquired on an empty bucket; from then on the connection
    drops on every PUT. *)
Definition put_dropped : Env :=
  mkEnv marshal unmarshal clock uuids
        (fun _ => not_found)
        (fun n => match n with
                  | O => PutObject_ok "etag-1"
                  | _ => PutObject_err (errors_New "connection reset by peer") None
                  end)
        (fun _ => DeleteObject_ok) ticks alone.

(** The lock is acquired on an empty bucket; from then on every GET times
    out. *)
Definition partitioned : Env :=
  mkEnv marshal unmarshal clock uuids
        (fun n => match n with
                  | O => not_found
                  | _ => GetObject_err (errors_New "context deadline exceeded") None
                  end)
        (fun _ => PutObject_ok "etag-1")
        (fun _ => DeleteObject_ok) ticks alone.

(** The lock is acquired on an empty bucket; later the store holds this
    instance's record under a newer ETag than the cached one (a renewal
    that the store applied and whose answer never arrived). *)
Definition moved_on : Env :=
  mkEnv marshal unmarshal clock uuids
        (fun n => match n with
                  | O => not_found
                  | _ => GetObject_ok (Ok "instance-A") "etag-2"
                  end)
        (fun _ => PutObject_ok "etag-1")
        (fun _ => DeleteObject_ok) ticks alone.

(** The lock that [LockWith] builds, and the counters after it. *)
Definition fresh : Lock :=
  mkLock oci "core/lock" "https://10.0.0.1:8200" false "instance-A" nil_chan true None
         LockRenewInterval LockRetryInterval LockTTL LockWatchRetryInterval
         LockWatchRetryMax.

Definition built : Cursor := bump_uuid start.

(** The lock once [Lock] has acquired it on the empty bucket, and the
    counters at that point. *)
Definition leader : Lock :=
  mkLock oci "core/lock" "https://10.0.0.1:8200" true "instance-A" open_chan false
         (Some (mkLockCache "etag-1" (1 * time.Second)
                  (Some (mkLockRecord "core/lock" "https://10.0.0.1:8200" "instance-A"))))
         LockRenewInterval LockRetryInterval LockTTL LockWatchRetryInterval
         LockWatchRetryMax.

Definition acquired : Cursor := mkCursor 2 3 1 1 0 1 0.

(** The requests of these runs. *)
Definition get_request : GetObjectRequest :=
  mkGetObjectRequest "ns" "vault-lock" "core/lock" "request".

Definition first_put : PutObjectRequest :=
  mkPutObjectRequest "ns" "vault-lock" "core/lock" 10 "instance-A"
                     None (Some "*") "request".


Definition timed_out : GetObjectResponse :=
  GetObject_err (errors_New "context deadline exceeded") None.

End Scenario.

(** ** Frames: what a method may emit and what it keeps *)

Definition is_sleep (e : Event) : bool :=
  match e with EvSleep _ => true | _ => false end.
Definition is_go (e : Event) : bool :=
  match e with EvGo _ => true | _ => false end.

(** Every event of [evs] is of a kind that [allowed] accepts. *)
Definition only (allowed : Event -> bool) (evs : list Event) : Prop :=
  forall e, In e evs -> allowed e = true.

(** The events a method may emit, the relation it keeps between the lock
    at entry and at exit, and between the counters at entry and at exit. *)
Definition frame {A} (allowed : Event -> bool) (R : Lock -> Lock -> Prop)
           (K : Cursor -> Cursor -> Prop) (m : M A) : Prop :=
  forall l c,
    only allowed (events (m l c)) /\
    R l (final (m l c)) /\
    K c (cursor (m l c)).

(** The kinds of events of the write path, of the read path and of the
    watch loop. *)
Definition write_kinds (e : Event) : bool := is_get e || is_put e || is_sleep e.
Definition lock_kinds (e : Event) : bool := write_kinds e || is_go e.
Definition watch_kinds (e : Event) : bool := is_get e || is_close e.
Definition unlock_kinds (e : Event) : bool := is_get e || is_delete e || is_close e.

(** [l'] has the configuration of [l]: everything but the cache, the stop
    channel, its mark and [held]. *)
Definition same_config (l l' : Lock) : Prop :=
  backend l' = backend l /\ key l' = key l /\ value l' = value l /\
  identity l' = identity l /\ renewInterval l' = renewInterval l /\
  retryInterval l' = retryInterval l /\ ttl l' = ttl l /\
  watchRetryInterval l' = watchRetryInterval l /\
  watchRetryMax l' = watchRetryMax l.

(** The configuration and [held] are kept; the stop channel is only ever
    moved towards closed, in step with its mark. *)
Definition same_owner (l l' : Lock) : Prop :=
  same_config l l' /\ held l' = held l.

(** The configuration and the cache are kept. *)
Definition same_config_cache (l l' : Lock) : Prop :=
  same_config l l' /\ lockRecordCache l' = lockRecordCache l.

(** Which counters a method leaves alone: a read consumes no answer to a
    PUT, a DELETE, a select or a yield; and so on. *)
Definition reads_only (c c' : Cursor) : Prop :=
  n_put c' = n_put c /\ n_delete c' = n_delete c /\
  n_select c' = n_select c /\ n_yield c' = n_yield c.

Definition write_counters (c c' : Cursor) : Prop :=
  n_delete c' = n_delete c /\ n_select c' = n_select c /\ n_yield c' = n_yield c.

Definition lock_counters (c c' : Cursor) : Prop :=
  n_delete c' = n_delete c /\ n_yield c' = n_yield c.

Definition watch_counters (c c' : Cursor) : Prop :=
  n_put c' = n_put c /\ n_delete c' = n_delete c.

Definition unlock_counters (c c' : Cursor) : Prop :=
  n_put c' = n_put c /\ n_select c' = n_select c /\ n_yield c' = n_yield c.

(** Whether the answer to a GET is a record that names [id]. *)
Definition names (env : Env) (id : string) (resp : GetObjectResponse) : bool :=
  match resp with
  | GetObject_ok (Ok body) _ =>
      match json_Unmarshal env body with
      | Ok r => String.eqb (Identity r) id
      | Err _ => false
      end
  | _ => false
  end.

(** The lock is acquired on an empty bucket; the first renewal PUT is
    answered 503, the second try is accepted under "etag-2". *)
Definition flapping : Env :=
  mkEnv Scenario.marshal Scenario.unmarshal Scenario.clock Scenario.uuids
        (fun _ => Scenario.not_found)
        (fun n => match n with
                  | O => PutObject_ok "etag-1"
                  | S O => PutObject_err (errors_New "503 Service Unavailable") (Some 503)
                  | _ => PutObject_ok "etag-2"
                  end)
        (fun _ => DeleteObject_ok) Scenario.ticks Scenario.alone.

(** Another instance holds the lock; the caller of [Lock] closes its channel
    after the first tick. *)
Definition cancelled : Env :=
  mkEnv Scenario.marshal Scenario.unmarshal Scenario.clock Scenario.uuids
        (fun _ => GetObject_ok (Ok "instance-B") "etag-7")
        (fun _ => PutObject_ok "etag-8")
        (fun _ => DeleteObject_ok)
        (fun n => match n with O => TickerFired | _ => StopClosed end)
        Scenario.alone.

(** The lock is acquired on an empty bucket; later the store holds the
    record of another instance. *)
Definition usurped : Env :=
  mkEnv Scenario.marshal Scenario.unmarshal Scenario.clock Scenario.uuids
        (fun n => match n with
                  | O => Scenario.not_found
                  | _ => GetObject_ok (Ok "instance-B") "etag-9"
                  end)
        (fun _ => PutObject_ok "etag-1")
        (fun _ => DeleteObject_ok) Scenario.ticks Scenario.alone.

(** The lock is acquired on an empty bucket; the renew loop ticks twice,
    then finds [stopCh] closed by another goroutine. *)
Definition stopped_later : Env :=
  mkEnv Scenario.marshal Scenario.unmarshal Scenario.clock Scenario.uuids
        (fun _ => Scenario.not_found)
        (fun n => match n with
                  | O => PutObject_ok "etag-1"
                  | S O => PutObject_ok "etag-2"
                  | _ => PutObject_err (errors_New "412 Precondition Failed") (Some 412)
                  end)
        (fun _ => DeleteObject_ok)
        (fun n => match n with
                  | O => TickerFired | S O => TickerFired | S (S O) => TickerFired
                  | _ => StopClosed
                  end)
        Scenario.alone.

(** The bucket is empty at the GET, but another instance creates the object
    before the PUT arrives: the store refuses the PUT (If-None-Match). *)
Definition contended : Env :=
  mkEnv Scenario.marshal Scenario.unmarshal Scenario.clock Scenario.uuids
        (fun _ => Scenario.not_found)
        (fun _ => PutObject_err (errors_New "412 Precondition Failed") (Some 412))
        (fun _ => DeleteObject_ok) Scenario.ticks Scenario.alone.

(** A call that the store did not serve: a PUT answered with an error, or a
    GET whose answer makes [get] fail. *)
Definition failed_call (env : Env) (ev : Event) : bool :=
  match ev with
  | EvPutObject _ (PutObject_err _ _) => true
  | EvGetObject _ resp => get_fails env resp
  | _ => false
  end.

(** * Properties *)

(** ** Stepping through a run

    The equations below push a run past one bind at a time; the tactic
    [run_simpl] applies them without ever unfolding a loop. *)

Section Stepping.

Context {A B : Type} (env : Env) (f : A -> M B) (l : Lock) (c : Cursor).

Lemma bind_run (m : M A) :
  bind m f l c =
  match outcome (m l c) with
  | Done a => prepend (events (m l c)) (f a (final (m l c)) (cursor (m l c)))
  | Panic msg => mkRun (Panic msg) (final (m l c)) (cursor (m l c)) (events (m l c))
  | OutOfFuel => mkRun OutOfFuel (final (m l c)) (cursor (m l c)) (events (m l c))
  end.
Proof.
  unfold bind, prepend.
  destruct (m l c) as [[a|msg|] l1 c1 e1]; cbn; [destruct (f a l1 c1)|..]; reflexivity.
Qed.

Lemma bind_done (m : M A) a l1 c1 e1 :
  m l c = mkRun (Done a) l1 c1 e1 -> bind m f l c = prepend e1 (f a l1 c1).
Proof. intros H. rewrite bind_run, H. reflexivity. Qed.

Lemma bind_quiet (m : M A) a l1 c1 :
  m l c = mkRun (Done a) l1 c1 [] -> bind m f l c = f a l1 c1.
Proof.
  intros H. rewrite (bind_done _ _ _ _ _ H). unfold prepend.
  destruct (f a l1 c1); reflexivity.
Qed.

Lemma bind_ret a : bind (ret a) f l c = f a l c.
Proof. now apply bind_quiet. Qed.

End Stepping.

Lemma bind_assoc {A B C} (m : M A) (f : A -> M B) (g : B -> M C) l c :
  bind (bind m f) g l c = bind m (fun a => bind (f a) g) l c.
Proof.
  unfold bind.
  destruct (m l c) as [[a|msg|] l1 c1 e1]; try reflexivity.
  destruct (f a l1 c1) as [[b|msg|] l2 c2 e2]; try reflexivity.
  destruct (g b l2 c2) as [o l3 c3 e3]. now rewrite app_assoc.
Qed.

Section Primitives.

Context {B : Type} (env : Env) (l : Lock) (c : Cursor).

Lemma bind_this (f : Lock -> M B) : bind this f l c = f l l c.
Proof. now apply bind_quiet. Qed.

Lemma bind_modify g (f : unit -> M B) : bind (modify g) f l c = f tt (g l) c.
Proof. now apply bind_quiet. Qed.

Lemma bind_emit e (f : unit -> M B) : bind (emit e) f l c = prepend [e] (f tt l c).
Proof. now apply bind_done. Qed.

Lemma bind_panic {A} msg (f : A -> M B) :
  bind (panic msg) f l c = mkRun (Panic msg) l c [].
Proof. reflexivity. Qed.

Lemma bind_time_Now (f : time.Time -> M B) :
  bind (Now env) f l c = f (time_Now env (n_now c)) l (bump_now c).
Proof. now apply bind_quiet. Qed.

Lemma bind_GenerateUUID (f : goresult string -> M B) :
  bind (GenerateUUID env) f l c = f (uuid_GenerateUUID env (n_uuid c)) l (bump_uuid c).
Proof. now apply bind_quiet. Qed.

Lemma bind_GetObject req (f : GetObjectResponse -> M B) :
  bind (GetObject env req) f l c =
  prepend [EvGetObject req (client_GetObject env (n_get c))]
          (f (client_GetObject env (n_get c)) l (bump_get c)).
Proof. now apply bind_done. Qed.

Lemma bind_PutObject req (f : PutObjectResponse -> M B) :
  bind (PutObject env req) f l c =
  prepend [EvPutObject req (client_PutObject env (n_put c))]
          (f (client_PutObject env (n_put c)) l (bump_put c)).
Proof. now apply bind_done. Qed.

Lemma bind_DeleteObject req (f : DeleteObjectResponse -> M B) :
  bind (DeleteObject env req) f l c =
  prepend [EvDeleteObject req (client_DeleteObject env (n_delete c))]
          (f (client_DeleteObject env (n_delete c)) l (bump_delete c)).
Proof. now apply bind_done. Qed.

Lemma bind_time_Sleep d (f : unit -> M B) :
  bind (time_Sleep d) f l c = prepend [EvSleep d] (f tt l c).
Proof. now apply bind_done. Qed.

Lemma bind_loadLockRecordCache (f : option LockCache -> M B) :
  bind loadLockRecordCache f l c = f (lockRecordCache l) l c.
Proof. now apply bind_quiet. Qed.

Lemma bind_storeLockRecordCache lc (f : unit -> M B) :
  bind (storeLockRecordCache lc) f l c = f tt (set_lockRecordCache (Some lc) l) c.
Proof. now apply bind_quiet. Qed.

Lemma prepend_mkRun evs o evs' :
  prepend evs (mkRun (A:=B) o l c evs') = mkRun o l c (evs ++ evs').
Proof. reflexivity. Qed.

Lemma prepend_nil (r : Run B) : prepend [] r = r.
Proof. destruct r; reflexivity. Qed.

Lemma run_ret (b : B) : ret b l c = mkRun (Done b) l c [].
Proof. reflexivity. Qed.

Lemma run_panic msg : @panic B msg l c = mkRun (Panic msg) l c [].
Proof. reflexivity. Qed.

End Primitives.

(** Push a run one primitive further, without unfolding any loop. *)
Ltac run_step :=
  first
    [ rewrite bind_assoc | rewrite bind_ret | rewrite bind_this
    | rewrite bind_modify | rewrite bind_emit
    | rewrite bind_time_Now | rewrite bind_GenerateUUID | rewrite bind_GetObject
    | rewrite bind_PutObject | rewrite bind_DeleteObject | rewrite bind_time_Sleep
    | rewrite bind_loadLockRecordCache | rewrite bind_storeLockRecordCache
    | rewrite bind_panic | rewrite run_ret | rewrite run_panic
    | rewrite prepend_mkRun | rewrite prepend_nil | rewrite app_nil_r
    | progress cbn [outcome final cursor events prepend app fst snd negb] ].

(** Read a counter through the bumps made since. *)
Ltac cursor_step :=
  match goal with
  | |- context [?p (?b ?c)] =>
      lazymatch p with
      | n_now => idtac | n_uuid => idtac | n_get => idtac | n_put => idtac
      | n_delete => idtac | n_select => idtac | n_yield => idtac
      end;
      lazymatch b with
      | bump_now => idtac | bump_uuid => idtac | bump_get => idtac | bump_put => idtac
      | bump_delete => idtac | bump_select => idtac | bump_yield => idtac
      end;
      let v := eval cbn [n_now n_uuid n_get n_put n_delete n_select n_yield
                         bump_now bump_uuid bump_get bump_put bump_delete
                         bump_select bump_yield] in (p (b c)) in
      change (p (b c)) with v
  end.

Ltac run_simpl := repeat first [run_step | cursor_step].

(** ** Event lists and locks that differ in the cache only *)

Lemma none_nil p : none p [].
Proof. intros e []. Qed.

Lemma none_app p xs ys : none p xs -> none p ys -> none p (xs ++ ys).
Proof. intros Hx Hy e He. apply in_app_or in He as [He|He]; auto. Qed.

Lemma none_cons p x xs : p x = false -> none p xs -> none p (x :: xs).
Proof. intros Hx Hxs e [<-|He]; auto. Qed.

Create HintDb runs.
#[local] Hint Resolve none_nil none_app none_cons : runs.

Lemma same_refl l : same_but_cache l l.
Proof. destruct l; reflexivity. Qed.

Lemma same_set l x : same_but_cache l (set_lockRecordCache x l).
Proof. reflexivity. Qed.

Lemma same_set_after l l' x :
  same_but_cache l l' -> set_lockRecordCache x l' = set_lockRecordCache x l.
Proof. intros ->. reflexivity. Qed.

Lemma same_fields l l' :
  same_but_cache l l' ->
  key l' = key l /\ value l' = value l /\ identity l' = identity l /\
  backend l' = backend l /\ ttl l' = ttl l.
Proof. intros ->. repeat split. Qed.

#[local] Hint Resolve same_refl same_set : runs.

Ltac split_ltb :=
  match goal with
  | |- context [?a <? ?b] => destruct (a <? b) eqn:?
  end.

(** ** Runs of the pieces of [writeLock] *)

(** [cacheNotOwnedOrStale] only reads: the lock and the trace are untouched,
    and it answers [false] exactly for a self-owned entry within its TTL. *)
Lemma cacheNotOwnedOrStale_run env snapshot l c :
  exists b c',
    cacheNotOwnedOrStale env snapshot l c = mkRun (Done b) l c' [] /\
    (b = false ->
     exists lc r, snapshot = Some lc /\ lockRecord lc = Some r /\
       Identity r = identity l /\ c' = bump_now c /\
       time.Sub (time_Now env (n_now c)) (lastUpdate lc) <= ttl l).
Proof.
  unfold cacheNotOwnedOrStale. run_simpl.
  destruct snapshot as [lc|]; [destruct (lockRecord lc) as [r|] eqn:Hr|]; run_simpl.
  - destruct (String.eqb_spec (Identity r) (identity l)) as [Hid|Hid]; run_simpl.
    + eexists _, _. split; [reflexivity|]. intros Hb.
      exists lc, r. repeat split; auto. apply Z.ltb_ge in Hb. exact Hb.
    + eexists _, _. split; [reflexivity|]. discriminate.
  - eexists _, _. split; [reflexivity|]. discriminate.
  - eexists _, _. split; [reflexivity|]. discriminate.
Qed.

Lemma get_run env l c :
  exists v c' evs,
    get env l c = mkRun (Done v) l c' evs /\ get_answer env v evs /\
    n_now c' = n_now c.
Proof.
  unfold get. run_simpl.
  destruct (uuid_GenerateUUID env (n_uuid c)) as [id|e]; run_simpl.
  2:{ eexists _, _, _. split; [reflexivity|]. split; [constructor|reflexivity]. }
  destruct (client_GetObject env (n_get c)) as [[body|e] tag|e [code|]] eqn:Hresp; run_simpl.
  - destruct (json_Unmarshal env body) as [r|e] eqn:Hr; run_simpl;
      eexists _, _, _; (split; [reflexivity|]); (split; [|reflexivity]).
    + now constructor.
    + constructor.
  - eexists _, _, _. split; [reflexivity|]. split; [constructor|reflexivity].
  - destruct (Z.eqb_spec code http_StatusNotFound) as [->|Hc]; run_simpl;
      eexists _, _, _; (split; [reflexivity|]); (split; [constructor|reflexivity]).
  - eexists _, _, _. split; [reflexivity|]. split; [constructor|reflexivity].
Qed.

(** [get] by the answer of the store: with a request id it makes one GET,
    and what it returns is decided by the answer; without one it makes no
    request. *)
Lemma get_by_response env l c id :
  uuid_GenerateUUID env (n_uuid c) = Ok id ->
  exists v,
    get env l c
    = mkRun (Done v) l (bump_get (bump_uuid c))
        [EvGetObject (mkGetObjectRequest (namespaceName (backend l))
                        (lockBucketName (backend l)) (key l) id)
                     (client_GetObject env (n_get c))] /\
    (forall body tag r,
       client_GetObject env (n_get c) = GetObject_ok (Ok body) tag ->
       json_Unmarshal env body = Ok r -> v = (Some r, tag, None)) /\
    (forall e,
       client_GetObject env (n_get c) = GetObject_err e (Some http_StatusNotFound) ->
       v = (None, "", None)) /\
    (get_fails env (client_GetObject env (n_get c)) = true ->
     exists e, v = (None, "", Some e)).
Proof.
  intros Hu. unfold get, get_fails. run_simpl. rewrite Hu. run_simpl.
  destruct (client_GetObject env (n_get c)) as [[body|e] tag|e [code|]]; run_simpl.
  - destruct (json_Unmarshal env body) as [r|e] eqn:Hr; run_simpl;
      eexists; (split; [reflexivity|]); repeat split; try discriminate; eauto.
    + intros body' tag' r' [= <- <-] Hr'. rewrite Hr in Hr'. now injection Hr' as <-.
    + intros body' tag' r' [= <- <-] Hr'. rewrite Hr in Hr'. discriminate.
  - eexists. split; [reflexivity|]. repeat split; try discriminate; eauto.
  - destruct (Z.eqb_spec code http_StatusNotFound) as [->|Hc]; run_simpl;
      eexists; (split; [reflexivity|]); repeat split; try discriminate; eauto.
    intros e' [= _ Hcode]. contradiction.
  - eexists. split; [reflexivity|]. repeat split; try discriminate; eauto.
Qed.

Lemma get_without_request_id env l c e :
  uuid_GenerateUUID env (n_uuid c) = Err e ->
  get env l c
  = mkRun (Done (None, "", Some (errwrap_Wrapf "failed to generate UUID: {{err}}" e)))
          l (bump_uuid c) [].
Proof. intros Hu. unfold get. run_simpl. rewrite Hu. run_simpl. reflexivity. Qed.

(** The secondary's read, in closed form over the run of its [get]. *)
Lemma writeLock_read_run env snapshot l c :
  exists v c1 evs,
    get env l c = mkRun (Done v) l c1 evs /\ get_answer env v evs /\
    n_now c1 = n_now c /\
    writeLock_read env snapshot l c =
    match v with
    | (_, _, Some e) =>
        mkRun (Done (inl (errwrap_Wrapf "error reading lock record: {{err}}" e))) l c1 evs
    | (cur, tag, None) =>
        if refreshes snapshot tag then
          let lc := mkLockCache tag (time_Now env (n_now c1)) cur in
          mkRun (Done (inr (cur, Some lc))) (set_lockRecordCache (Some lc) l)
                (bump_now c1) evs
        else mkRun (Done (inr (cur, snapshot))) l c1 evs
    end.
Proof.
  destruct (get_run env l c) as (v & c1 & evs & Hget & Hans & Hnow).
  exists v, c1, evs. repeat split; auto.
  unfold writeLock_read. erewrite bind_done by exact Hget.
  destruct v as [[cur tag] [e|]]; run_simpl.
  - reflexivity.
  - unfold refreshes. destruct snapshot as [lc0|]; run_simpl.
    + destruct (String.eqb (etag lc0) tag); run_simpl; reflexivity.
    + reflexivity.
Qed.

Lemma writeLock_gate_run env cur lc l c :
  writeLock_gate env cur (Some lc) l c =
  match cur with
  | None => mkRun (Done false) l c []
  | Some _ =>
      mkRun (Done (time.Sub (time_Now env (n_now c)) (lastUpdate lc)
                   <? LockCacheMinAcceptableAge)) l (bump_now c) []
  end.
Proof. destruct cur; reflexivity. Qed.

Lemma get_answer_no_put env v evs : get_answer env v evs -> none is_put evs.
Proof. intros []; auto with runs. Qed.

Lemma get_answer_absent env tag evs : get_answer env (None, tag, None) evs -> tag = "".
Proof. inversion 1; reflexivity. Qed.

(** What [writeLock_inspect] leaves behind: no PUT so far; when it returns,
    it returns [false]; when it goes on, the snapshot it hands over is the
    entry that the cache holds. *)
Lemma writeLock_inspect_run env l c :
  exists v l' c' evs,
    writeLock_inspect env l c = mkRun (Done v) l' c' evs /\
    none is_put evs /\ same_but_cache l l' /\
    match v with
    | inl early => fst early = false
    | inr snapshot => exists lc, snapshot = Some lc /\ lockRecordCache l' = Some lc
    end.
Proof.
  unfold writeLock_inspect. run_simpl.
  destruct (cacheNotOwnedOrStale_run env (lockRecordCache l) l c) as (b & c0 & Hc & Hb).
  erewrite bind_quiet by exact Hc.
  destruct b; run_simpl.
  - destruct (writeLock_read_run env (lockRecordCache l) l c0)
      as ([[cur tag] err] & c1 & evs & _ & Hans & _ & Hread).
    pose proof (get_answer_no_put _ _ _ Hans) as Hnp.
    rewrite bind_run, Hread.
    destruct err as [e|]; run_simpl.
    { eexists _, _, _, _. split; [reflexivity|]. auto with runs. }
    destruct (refreshes (lockRecordCache l) tag) eqn:Hrf; run_simpl.
    + rewrite bind_run, writeLock_gate_run.
      destruct cur as [r|]; run_simpl; [split_ltb; run_simpl|];
        eexists _, _, _, _; (split; [reflexivity|]);
        (split; [exact Hnp|]); (split; [auto with runs|]); eauto.
    + destruct (lockRecordCache l) as [lc0|] eqn:Hl0; [|discriminate].
      rewrite bind_run, writeLock_gate_run.
      destruct cur as [r|]; run_simpl; [split_ltb; run_simpl|];
        eexists _, _, _, _; (split; [reflexivity|]);
        (split; [exact Hnp|]); (split; [auto with runs|]); eauto.
  - destruct (Hb eq_refl) as (lc & r & Hs & _).
    eexists _, _, _, _. split; [reflexivity|]. eauto with runs.
Qed.

(** The loop of PUT attempts: it leaves the lock alone, its events have the
    shape [put_attempts], and it ends without an error only when the first
    attempt of the call succeeded. *)
Lemma writeLock_putLoop_run env left :
  forall req i err tag l c,
    1 <= i ->
    i + Z.of_nat left = Z.of_nat LockWriteRetriesOnFailures + 1 ->
    exists err' tag' c' evs,
      writeLock_putLoop env left i req err tag l c
      = mkRun (Done (err', tag')) l c' evs /\
      n_now c' = n_now c /\
      (left = O -> evs = []) /\
      (left <> O -> put_attempts req i evs) /\
      (err' = None -> err = None) /\
      (err' = None -> left <> O -> evs = [EvPutObject req (PutObject_ok tag')]).
Proof.
  induction left as [|left IH]; intros req i err tag l c Hi Hsum.
  - cbn [writeLock_putLoop]. run_simpl. eexists _, _, _, _. split; [reflexivity|].
    repeat split; auto; congruence.
  - cbn [writeLock_putLoop]. run_simpl.
    destruct (client_PutObject env (n_put c)) as [tag1|e [code|]] eqn:Hresp; run_simpl.
    + eexists _, _, _, _. split; [reflexivity|].
      repeat split; auto; try congruence.
      intros _. apply attempts_end; [lia|reflexivity].
    + destruct (Z.quot code 100 =? 5) eqn:H5; run_simpl.
      * destruct (IH (drained req) (i + 1) (Some e) tag l (bump_put c)) as
          (err' & tag' & c' & evs & Hrun & Hnow & Hnil & Hshape & Herr & _);
          [lia|lia|].
        rewrite Hrun. run_simpl.
        eexists _, _, _, _. split; [reflexivity|].
        split; [exact Hnow|]. split; [discriminate|].
        split; [|split; [|intros Hn; apply Herr in Hn; discriminate]].
        -- intros _. destruct left as [|left'].
           ++ rewrite (Hnil eq_refl). apply attempts_exhausted; [lia|].
              cbn. exact H5.
           ++ apply attempts_retry; [lia|cbn; exact H5|].
              apply Hshape. discriminate.
        -- intros Hn. apply Herr in Hn. discriminate.
      * eexists _, _, _, _. split; [reflexivity|].
        repeat split; auto; try congruence.
        intros _. apply attempts_end; [lia|cbn; exact H5].
    + eexists _, _, _, _. split; [reflexivity|].
      repeat split; auto; try congruence.
      intros _. apply attempts_end; [lia|reflexivity].
Qed.

Lemma writeLock_put_run env lc l c :
  exists v l' c' evs,
    writeLock_put env (Some lc) l c = mkRun (Done v) l' c' evs /\
    same_but_cache l l' /\
    match json_Marshal env (own_record l), uuid_GenerateUUID env (n_uuid c) with
    | Ok body, Ok id =>
        put_attempts (with_precondition (etag lc) (bare_request l body id)) 1 evs /\
        (v = (true, None) ->
         exists tag',
           evs = [EvPutObject (with_precondition (etag lc) (bare_request l body id))
                              (PutObject_ok tag')] /\
           l' = set_lockRecordCache
                  (Some (mkLockCache tag' (time_Now env (n_now c)) (Some (own_record l)))) l)
    | _, _ => evs = [] /\ fst v = false
    end.
Proof.
  unfold writeLock_put. run_simpl. fold (own_record l).
  destruct (json_Marshal env (own_record l)) as [body|e] eqn:Hm; run_simpl.
  2:{ eexists _, _, _, _. split; [reflexivity|]. split; [apply same_refl|].
      split; reflexivity. }
  destruct (uuid_GenerateUUID env (n_uuid c)) as [id|e] eqn:Hu; run_simpl.
  2:{ eexists _, _, _, _. split; [reflexivity|]. split; [apply same_refl|].
      split; reflexivity. }
  fold (bare_request l body id).
  destruct (writeLock_putLoop_run env LockWriteRetriesOnFailures
              (with_precondition (etag lc) (bare_request l body id))
              1 None "" l (bump_uuid c))
    as (err' & tag' & c' & evs & Hrun & Hnow & _ & Hshape & _ & Hone); [lia|lia|].
  erewrite bind_done by exact Hrun.
  destruct err' as [e|]; run_simpl.
  - eexists _, _, _, _. split; [reflexivity|]. split; [apply same_refl|].
    split; [apply Hshape; discriminate|]. discriminate.
  - eexists _, _, _, _. split; [reflexivity|]. split; [apply same_set|].
    split; [apply Hshape; discriminate|]. intros _.
    exists tag'. split; [apply Hone; [reflexivity|discriminate]|].
    rewrite Hnow. reflexivity.
Qed.

(** [writeLock] is its inspection followed, unless that returned, by the PUT
    on the snapshot it handed over. *)
Lemma writeLock_run env l c :
  exists v l1 c1 evs,
    writeLock_inspect env l c = mkRun (Done v) l1 c1 evs /\
    none is_put evs /\ same_but_cache l l1 /\
    match v with
    | inl early =>
        fst early = false /\ writeLock env l c = mkRun (Done early) l1 c1 evs
    | inr snapshot =>
        exists lc, snapshot = Some lc /\ lockRecordCache l1 = Some lc /\
          writeLock env l c = prepend evs (writeLock_put env (Some lc) l1 c1)
    end.
Proof.
  destruct (writeLock_inspect_run env l c)
    as (v & l1 & c1 & evs & Hrun & Hnp & Hsame & Hsnap).
  exists v, l1, c1, evs. do 3 (split; [assumption|]).
  unfold writeLock. erewrite bind_done by exact Hrun.
  destruct v as [early|snapshot]; run_simpl; [split; [assumption|reflexivity]|].
  destruct Hsnap as (lc & -> & Hlc).
  exists lc. repeat split; auto.
Qed.

Lemma same_headers_refl req : same_headers req req.
Proof. repeat split. Qed.

Lemma same_headers_drained req r : same_headers (drained req) r -> same_headers req r.
Proof. intros H. exact H. Qed.

(** Every attempt passes the request of the first one, but for the body. *)
Lemma put_attempts_request req i evs r resp :
  put_attempts req i evs -> In (EvPutObject r resp) evs -> same_headers req r.
Proof.
  induction 1 as [req i resp' _ _|req i resp' rest _ _ _ IH|req i resp' _ _];
    cbn; intros Hin.
  - destruct Hin as [[= -> _]|[]]. apply same_headers_refl.
  - destruct Hin as [[= -> _]|[[=]|Hin]]; [apply same_headers_refl|].
    apply same_headers_drained. auto.
  - destruct Hin as [[= -> _]|[[=]|[]]]. apply same_headers_refl.
Qed.


Lemma same_headers_precondition req r :
  same_headers req r -> IfMatch r = IfMatch req /\ IfNoneMatch r = IfNoneMatch req.
Proof. intros (_ & _ & _ & _ & Hm & Hn & _). split; assumption. Qed.


Lemma count_none p evs : none p evs -> count p evs = O.
Proof.
  unfold count. induction evs as [|e evs IH]; intros Hn; cbn; [reflexivity|].
  rewrite (Hn e (or_introl eq_refl)). apply IH. intros x Hx. apply Hn. now right.
Qed.

Lemma count_app p xs ys : count p (xs ++ ys) = (count p xs + count p ys)%nat.
Proof. unfold count. rewrite filter_app, length_app. reflexivity. Qed.

Lemma with_precondition_cases tag base :
  IfMatch base = None -> IfNoneMatch base = None ->
  let req := with_precondition tag base in
  (tag = "" /\ IfNoneMatch req = Some "*" /\ IfMatch req = None) \/
  (tag <> "" /\ IfMatch req = Some tag /\ IfNoneMatch req = None).
Proof.
  intros Hm Hn. unfold with_precondition.
  destruct (String.eqb_spec tag ""); cbn; auto.
Qed.

Lemma put_attempts_first req i evs :
  put_attempts req i evs -> exists resp rest, evs = EvPutObject req resp :: rest.
Proof. intros []; eauto. Qed.

Lemma run_eta {A} (r : Run A) :
  r = mkRun (outcome r) (final r) (cursor r) (events r).
Proof. destruct r; reflexivity. Qed.

(** What the secondary's read hands over. *)
Lemma writeLock_read_facts env snapshot l c cur snapshot' :
  let g := writeLock_read env snapshot l c in
  outcome g = Done (inr (cur, snapshot')) ->
  exists lc,
    snapshot' = Some lc /\
    none is_put (events g) /\ same_but_cache l (final g) /\
    (cur = None -> etag lc = "") /\
    (forall lc0, snapshot = Some lc0 -> etag lc0 = etag lc -> lc = lc0) /\
    (snapshot = None \/ (exists lc0, snapshot = Some lc0 /\ etag lc0 <> etag lc) ->
     lockRecordCache (final g) = Some lc /\ lockRecord lc = cur) /\
    (refreshes snapshot (etag lc) = true ->
     lastUpdate lc = time_Now env (n_now c)).
Proof.
  intros g Hg. subst g.
  destruct (writeLock_read_run env snapshot l c)
    as ([[cur' tag] err] & c1 & evs & _ & Hans & Hnow & Hread).
  rewrite Hread in *. clear Hread.
  destruct err as [e|]; [discriminate|].
  assert (Hnp : none is_put evs) by eauto using get_answer_no_put.
  assert (Habs : cur' = None -> tag = "").
  { intros ->. eauto using get_answer_absent. }
  unfold refreshes in *.
  destruct snapshot as [lc0|].
  - destruct (String.eqb_spec (etag lc0) tag) as [Heq|Hne];
      cbn [negb outcome final cursor events] in *; injection Hg as <- <-.
    + exists lc0. split; [reflexivity|]. split; [exact Hnp|].
      split; [auto with runs|].
      split; [intros Hcur; rewrite Heq; auto|].
      split; [intros lc1 [= <-] _; reflexivity|].
      split; [intros [[=]|(lc1 & [= <-] & Hne)]; contradiction|].
      rewrite String.eqb_refl. discriminate.
    + eexists. split; [reflexivity|]. split; [exact Hnp|].
      split; [auto with runs|].
      split; [exact Habs|].
      split; [intros lc1 [= <-] Htag; cbn in Htag; contradiction|].
      split; [intros _; split; reflexivity|].
      intros _. cbn [lastUpdate]. now rewrite Hnow.
  - cbn [outcome final cursor events] in *. injection Hg as <- <-.
    eexists. split; [reflexivity|]. split; [exact Hnp|].
    split; [auto with runs|].
    split; [exact Habs|].
    split; [discriminate|].
    split; [intros _; split; reflexivity|].
    intros _. cbn [lastUpdate]. now rewrite Hnow.
Qed.

(** [writeLock] on the secondary path, over the run of its read. *)
Lemma writeLock_secondary_run env l c cur lc :
  let s := cacheNotOwnedOrStale env (lockRecordCache l) l c in
  let g := writeLock_read env (lockRecordCache l) l (cursor s) in
  outcome s = Done true ->
  outcome g = Done (inr (cur, Some lc)) ->
  writeLock env l c =
  prepend (events g)
    match cur with
    | Some _ =>
        if time.Sub (time_Now env (n_now (cursor g))) (lastUpdate lc)
           <? LockCacheMinAcceptableAge
        then mkRun (Done (false, None)) (final g) (bump_now (cursor g)) []
        else writeLock_put env (Some lc) (final g) (bump_now (cursor g))
    | None => writeLock_put env (Some lc) (final g) (cursor g)
    end.
Proof.
  intros s g Hs Hg. subst s g.
  destruct (cacheNotOwnedOrStale_run env (lockRecordCache l) l c) as (b & c0 & Hc & _).
  rewrite Hc in *. cbn [outcome cursor] in *. injection Hs as ->.
  unfold writeLock, writeLock_inspect. run_simpl.
  erewrite bind_quiet by exact Hc. cbv beta iota. run_simpl.
  set (g := writeLock_read env (lockRecordCache l) l c0) in *.
  rewrite (bind_run _ _ _ (writeLock_read env (lockRecordCache l))).
  fold g. rewrite Hg. cbv beta iota. run_simpl.
  rewrite (bind_run _ _ _ (writeLock_gate env cur (Some lc))), writeLock_gate_run.
  destruct cur as [r|]; run_simpl.
  - split_ltb; run_simpl; reflexivity.
  - reflexivity.
Qed.


Lemma own_record_eq l l' :
  key l' = key l -> value l' = value l -> identity l' = identity l ->
  own_record l' = own_record l.
Proof. unfold own_record. now intros -> -> ->. Qed.

(** ** writeLock: the freshness gate, the retries, the preconditions *)

(** C2 (freshness gate).  Take a call of [writeLock] on the secondary
    path: its test of the cache answers [true] (no entry, no record, a
    foreign identity, or older than the TTL), and its read returns a record
    [currentLockRecord] with the refreshed snapshot [lc].  The age of the
    snapshot counts from the first observation of its ETag: when the cache
    already held that ETag the snapshot is the cached entry, untouched, and
    otherwise it is stamped with the clock reading taken right after the
    GET.  If the record read is not nil and the snapshot is younger than
    [LockCacheMinAcceptableAge] at the clock reading of the gate,
    [writeLock] returns [(false, nil)] and has issued no PUT.  If the record
    read is nil the gate is skipped whatever the age: as soon as
    marshalling and the request UUID succeed, a PUT is issued, and it
    carries [IfNoneMatch: *]. *)
Theorem writeLock_freshness_gate env l c :
  let s := cacheNotOwnedOrStale env (lockRecordCache l) l c in
  let g := writeLock_read env (lockRecordCache l) l (cursor s) in
  let w := writeLock env l c in
  outcome s = Done true ->
  forall currentLockRecord lc,
    outcome g = Done (inr (currentLockRecord, Some lc)) ->
    (if refreshes (lockRecordCache l) (etag lc)
     then lastUpdate lc = time_Now env (n_now (cursor s))
     else lockRecordCache l = Some lc) /\
    (currentLockRecord <> None ->
     time.Sub (time_Now env (n_now (cursor g))) (lastUpdate lc)
       < LockCacheMinAcceptableAge ->
     outcome w = Done (false, None) /\ none is_put (events w)) /\
    (currentLockRecord = None ->
     forall body id,
       json_Marshal env (own_record l) = Ok body ->
       uuid_GenerateUUID env (n_uuid (cursor g)) = Ok id ->
       exists req resp,
         In (EvPutObject req resp) (events w) /\
         IfNoneMatch req = Some "*" /\ IfMatch req = None).
Proof.
  intros s g w Hs cur lc Hg.
  pose proof (writeLock_secondary_run env l c cur lc Hs Hg) as Hw.
  fold s g w in Hw.
  destruct (writeLock_read_facts env _ l (cursor s) cur (Some lc) Hg)
    as (lc' & [= <-] & Hnp & Hfin & Habs & Hsame & _ & Hstamp).
  fold g in Hnp, Hfin.
  destruct (same_fields _ _ Hfin) as (Hk & Hv & Hi & _).
  split; [|split].
  - destruct (refreshes (lockRecordCache l) (etag lc)) eqn:Hrf; [auto|].
    unfold refreshes in Hrf.
    destruct (lockRecordCache l) as [lc0|]; [|discriminate].
    apply negb_false_iff, String.eqb_eq in Hrf.
    now rewrite (Hsame lc0 eq_refl Hrf).
  - intros Hcur Hage. destruct cur as [r|]; [|contradiction].
    apply Z.ltb_lt in Hage. rewrite Hage in Hw. rewrite Hw.
    cbn [prepend outcome events]. split; [reflexivity|].
    rewrite app_nil_r. exact Hnp.
  - intros -> body id Hm Hu.
    destruct (writeLock_put_run env lc (final g) (cursor g))
      as (v & l' & c' & evs & Hput & _ & Hshape).
    rewrite (own_record_eq _ _ Hk Hv Hi), Hm, Hu in Hshape.
    destruct Hshape as [Hshape _].
    apply put_attempts_first in Hshape as (resp & rest & ->).
    rewrite Hw, Hput. cbn [prepend events].
    eexists _, resp. split; [apply in_or_app; right; left; reflexivity|].
    rewrite (Habs eq_refl). split; reflexivity.
Qed.


(** C5 (CAS honesty).  Every PUT that [writeLock] issues was built from
    the cache entry [lc] that the cache holds when the inspection phase
    ends, and carries exactly one precondition: [IfNoneMatch: *] and no
    [IfMatch] when the cached ETag is empty, [IfMatch] with the cached ETag
    and no [IfNoneMatch] otherwise. *)
Theorem writeLock_put_precondition env l c req resp :
  In (EvPutObject req resp) (events (writeLock env l c)) ->
  exists lc,
    outcome (writeLock_inspect env l c) = Done (inr (Some lc)) /\
    lockRecordCache (final (writeLock_inspect env l c)) = Some lc /\
    ((etag lc = "" /\ IfNoneMatch req = Some "*" /\ IfMatch req = None) \/
     (etag lc <> "" /\ IfMatch req = Some (etag lc) /\ IfNoneMatch req = None)).
Proof.
  intros Hin.
  destruct (writeLock_run env l c)
    as (v & l1 & c1 & evs & Hi & Hnp & _ & Hw).
  destruct v as [early|snapshot].
  - destruct Hw as [_ Hw].
    rewrite Hw in Hin. cbn [events] in Hin. apply Hnp in Hin. discriminate.
  - destruct Hw as (lc & -> & Hlc & Hw).
    exists lc. rewrite Hi. cbn [outcome final].
    split; [reflexivity|]. split; [exact Hlc|].
    destruct (writeLock_put_run env lc l1 c1) as (v & l' & c' & evs' & Hput & _ & Hshape).
    rewrite Hw, Hput in Hin. cbn [prepend events] in Hin.
    apply in_app_or in Hin as [Hin|Hin]; [apply Hnp in Hin; discriminate|].
    destruct (json_Marshal env (own_record l1)) as [body|e];
      [destruct (uuid_GenerateUUID env (n_uuid c1)) as [id|e]|];
      try (destruct Hshape as [-> _]; contradiction).
    destruct Hshape as [Hshape _].
    destruct (same_headers_precondition _ _ (put_attempts_request _ _ _ _ _ Hshape Hin))
      as [-> ->].
    now apply with_precondition_cases.
Qed.

(** C10 (no nil cache at the PUT).  Whenever the inspection phase of
    [writeLock] goes on to the PUT, the snapshot it hands over is not nil
    and is the entry the cache holds.  The secondary's read, when its GET
    returns without error a record (or none) and an ETag, compares the ETag
    of its snapshot with the ETag that the GET returned: with no snapshot,
    or with another ETag in the snapshot, it stores a new entry made of the
    ETag and the record just read and of the next clock reading, and hands
    that entry over; with the same ETag it leaves the cache alone and hands
    the snapshot over.  And no run of [writeLock] dereferences a nil
    snapshot at line 458 or 494. *)
Theorem writeLock_snapshot_never_nil env l c :
  (forall snapshot,
     outcome (writeLock_inspect env l c) = Done (inr snapshot) ->
     exists lc, snapshot = Some lc /\
       lockRecordCache (final (writeLock_inspect env l c)) = Some lc) /\
  (forall snapshot cur tag,
     outcome (get env l c) = Done (cur, tag, None) ->
     let g := writeLock_read env snapshot l c in
     let entry := mkLockCache tag (time_Now env (n_now c)) cur in
     get_answer env (cur, tag, None) (events g) /\
     (snapshot = None \/ (exists lc0, snapshot = Some lc0 /\ etag lc0 <> tag) ->
      outcome g = Done (inr (cur, Some entry)) /\
      lockRecordCache (final g) = Some entry) /\
     (forall lc0,
        snapshot = Some lc0 -> etag lc0 = tag ->
        outcome g = Done (inr (cur, Some lc0)) /\ final g = l)) /\
  (forall msg, outcome (writeLock env l c) <> Panic msg).
Proof.
  split; [|split].
  - intros snapshot Hs.
    destruct (writeLock_inspect_run env l c)
      as (v & l1 & c1 & evs & Hi & _ & _ & Hsnap).
    rewrite Hi in *. cbn [outcome final] in *. injection Hs as ->. exact Hsnap.
  - intros snapshot cur tag Hg. cbv zeta.
    destruct (writeLock_read_run env snapshot l c)
      as (v & c1 & evs & Hget & Hans & Hnow & Hread).
    rewrite Hget in Hg. cbn [outcome] in Hg. injection Hg as ->.
    rewrite Hread, <- Hnow. unfold refreshes.
    destruct snapshot as [lc0|].
    + destruct (String.eqb_spec (etag lc0) tag) as [Heq|Hne]; cbn [negb];
        cbn [outcome final events].
      * split; [exact Hans|]. split.
        -- intros [[=]|(lc1 & [= <-] & Hne)]. contradiction.
        -- intros lc1 [= <-] _. split; reflexivity.
      * split; [exact Hans|]. split.
        -- intros _. split; reflexivity.
        -- intros lc1 [= <-] Heq. contradiction.
    + cbn [outcome final events]. split; [exact Hans|]. split.
      * intros _. split; reflexivity.
      * discriminate.
  - intros msg.
    destruct (writeLock_run env l c)
      as (v & l1 & c1 & evs & _ & _ & _ & Hw).
    destruct v as [early|snapshot].
    + destruct Hw as [_ Hw]. rewrite Hw. discriminate.
    + destruct Hw as (lc & _ & _ & Hw).
      destruct (writeLock_put_run env lc l1 c1) as (v & l' & c' & evs' & Hput & _ & _).
      rewrite Hw, Hput. discriminate.
Qed.

Lemma put_attempts_kinds req i evs :
  put_attempts req i evs -> none is_get evs.
Proof.
  induction 1; intros e He; cbn in He;
    repeat (destruct He as [<-|He]; [reflexivity|]); auto; contradiction.
Qed.

(** C9 (self-owned cache after success).  When [writeLock] returns
    [(true, nil)], its last event is a PUT that the store answered with an
    ETag [tag'], the body of that PUT is the marshalled record
    [{key, value, identity}] of the lock, and the lock at return is the
    lock at entry with the cache entry [{tag', t, that record}].  Hence any
    later [writeLock] that starts while the entry is within the TTL makes
    no GET, and each PUT it issues is conditioned on [tag']. *)
Theorem writeLock_success_cache env l c :
  let w := writeLock env l c in
  outcome w = Done (true, None) ->
  exists before req tag' t,
    events w = (before ++ [EvPutObject req (PutObject_ok tag')])%list /\
    none is_put before /\
    json_Marshal env (own_record l) = Ok (PutObjectBody req) /\
    final w = set_lockRecordCache
                (Some (mkLockCache tag' t (Some (own_record l)))) l /\
    forall c2,
      time.Sub (time_Now env (n_now c2)) t <= ttl l ->
      let w2 := writeLock env (final w) c2 in
      none is_get (events w2) /\
      forall req2 resp2,
        In (EvPutObject req2 resp2) (events w2) ->
        (tag' = "" /\ IfNoneMatch req2 = Some "*" /\ IfMatch req2 = None) \/
        (tag' <> "" /\ IfMatch req2 = Some tag' /\ IfNoneMatch req2 = None).
Proof.
  intros w Hw. subst w.
  destruct (writeLock_run env l c) as (v & l1 & c1 & evs & _ & Hnp & Hsame & Hrun).
  destruct v as [early|snapshot].
  { destruct Hrun as [Hf Hrun]. rewrite Hrun in Hw. cbn [outcome] in Hw.
    injection Hw as ->. discriminate. }
  destruct Hrun as (lc & _ & _ & Hrun).
  destruct (writeLock_put_run env lc l1 c1) as (v & l' & c' & evs' & Hput & _ & Hshape).
  rewrite Hrun, Hput in Hw |- *. cbn [prepend outcome final events] in Hw |- *.
  injection Hw as ->.
  destruct (same_fields _ _ Hsame) as (Hk & Hv & Hi & _).
  rewrite (own_record_eq _ _ Hk Hv Hi) in Hshape.
  destruct (json_Marshal env (own_record l)) as [body|e] eqn:Hm;
    [destruct (uuid_GenerateUUID env (n_uuid c1)) as [id|e]|];
    try (destruct Hshape as [_ [=]]).
  destruct Hshape as [_ Hshape].
  destruct (Hshape eq_refl) as (tag' & -> & ->). clear Hshape.
  rewrite (same_set_after _ _ _ Hsame).
  eexists evs, _, tag', _.
  split; [reflexivity|]. split; [exact Hnp|].
  split; [unfold with_precondition; destruct (String.eqb (etag lc) ""); reflexivity|].
  split; [reflexivity|].
  intros c2 Hfresh. cbv zeta.
  set (t := time_Now env (n_now c1)) in *.
  set (entry := mkLockCache tag' t (Some (own_record l))).
  set (l2 := set_lockRecordCache (Some entry) l).
  assert (Hin : writeLock_inspect env l2 c2
                = mkRun (Done (inr (Some entry))) l2 (bump_now c2) []).
  { unfold writeLock_inspect, cacheNotOwnedOrStale. run_simpl.
    cbn [l2 entry set_lockRecordCache lockRecordCache lockRecord own_record
         Identity identity lastUpdate ttl].
    rewrite String.eqb_refl. run_simpl.
    apply Z.ltb_ge in Hfresh. rewrite Hfresh. run_simpl. reflexivity. }
  destruct (writeLock_put_run env entry l2 (bump_now c2))
    as (v2 & l3 & c3 & evs2 & Hput2 & _ & Hshape2).
  unfold writeLock. erewrite bind_quiet by exact Hin. cbv beta iota.
  rewrite Hput2. cbn [events].
  destruct (json_Marshal env (own_record l2)) as [body2|e2];
    [destruct (uuid_GenerateUUID env (n_uuid (bump_now c2))) as [id2|e2]|];
    try (destruct Hshape2 as [-> _]; split; [apply none_nil|intros ? ? []]).
  destruct Hshape2 as [Hshape2 _].
  split; [eapply put_attempts_kinds; exact Hshape2|].
  intros req2 resp2 Hin2.
  destruct (same_headers_precondition _ _ (put_attempts_request _ _ _ _ _ Hshape2 Hin2))
    as [-> ->].
  now apply (with_precondition_cases tag').
Qed.

(** ** Unlock: the release protocol *)

(** [stop] on a well-formed lock closes the channel once, or finds the lock
    already stopped. *)
Lemma stop_run l c :
  well_formed l = true ->
  exists l',
    stop l c = mkRun (Done tt) l' c (closes l) /\
    stopped l' = true /\ well_formed l' = true /\
    (held l = true -> stopCh l' = closed_chan) /\
    held l' = held l /\ lockRecordCache l' = lockRecordCache l /\
    identity l' = identity l /\ key l' = key l /\ backend l' = backend l.
Proof.
  unfold well_formed, stop, closes, close_stopCh. intros Hwf. run_simpl.
  destruct (stopped l) eqn:Hs; run_simpl.
  - exists l. split; [reflexivity|]. split; [exact Hs|].
    unfold well_formed. rewrite Hs. split; [exact Hwf|].
    split; [|repeat split].
    intros Hheld. rewrite Hheld in Hwf. destruct (stopCh l); try discriminate.
    reflexivity.
  - destruct (stopCh l) eqn:Hch; try discriminate.
    unfold bind, modify. cbn [set_stopped stopCh]. rewrite Hch.
    eexists. split; [reflexivity|]. cbn. repeat split; auto.
Qed.

Lemma Unlock_held_run env l c :
  held l = true -> well_formed l = true ->
  exists err l' c' v gevs dels,
    Unlock env l c = mkRun (Done err) l' c' (closes l ++ gevs ++ dels) /\
    held l' = false /\ stopped l' = true /\ stopCh l' = closed_chan /\
    lockRecordCache l' = lockRecordCache l /\
    get_answer env v gevs /\
    (dels = [] \/
     exists r tag req resp,
       v = (Some r, tag, None) /\ Identity r = identity l /\
       del_IfMatch req = Some tag /\ dels = [EvDeleteObject req resp]).
Proof.
  intros Hheld Hwf.
  destruct (stop_run l c Hwf)
    as (l1 & Hstop & Hs1 & _ & Hch1 & Hh1 & Hc1 & Hi1 & Hk1 & Hb1).
  specialize (Hch1 Hheld).
  unfold Unlock. run_simpl. rewrite Hheld. cbn [negb]. run_simpl.
  erewrite bind_done by exact Hstop. run_simpl.
  destruct (get_run env (set_held false l1) c) as (v & c1 & gevs & Hget & Hans & _).
  erewrite bind_done by exact Hget.
  destruct v as [[cur tag] [e|]]; run_simpl.
  { eexists _, _, _, _, gevs, []. rewrite !app_nil_r.
    split; [reflexivity|]. repeat split; auto. eassumption. }
  destruct cur as [r|]; run_simpl.
  2:{ eexists _, _, _, _, gevs, []. rewrite !app_nil_r.
      split; [reflexivity|]. repeat split; auto. eassumption. }
  destruct (String.eqb_spec (Identity r) (identity l)) as [Hid|Hid]; run_simpl.
  2:{ eexists _, _, _, _, gevs, []. rewrite !app_nil_r.
      split; [reflexivity|]. repeat split; auto. eassumption. }
  destruct (uuid_GenerateUUID env (n_uuid c1)) as [id|e]; run_simpl.
  2:{ eexists _, _, _, _, gevs, []. rewrite !app_nil_r.
      split; [reflexivity|]. repeat split; auto. eassumption. }
  destruct (client_DeleteObject env (n_delete c1)) as [|e] eqn:Hdel; run_simpl.
  - eexists _, _, _, _, gevs, [_].
    split; [reflexivity|]. repeat split; auto; [eassumption|].
    right. eexists r, tag, _, _. repeat split; auto.
  - eexists _, _, _, _, gevs, [_].
    split; [reflexivity|]. repeat split; auto; [eassumption|].
    right. eexists r, tag, _, _. repeat split; auto.
Qed.

Lemma get_answer_kinds env v evs :
  get_answer env v evs -> none is_close evs /\ none is_delete evs.
Proof. intros []; split; auto with runs. Qed.

Lemma get_answer_found env r tag evs :
  get_answer env (Some r, tag, None) evs ->
  exists req body,
    evs = [EvGetObject req (GetObject_ok (Ok body) tag)] /\
    json_Unmarshal env body = Ok r.
Proof. inversion 1; subst; eauto. Qed.



(** C7 (idempotent release).  [Unlock] on a lock that is not held returns
    nil, changes nothing and makes no call.  On any well-formed lock, a
    first [Unlock] returns, a second [Unlock] right after it returns nil
    with no event at all, and the two together issue at most one DELETE. *)
Theorem Unlock_idempotent env l c :
  (held l = false -> Unlock env l c = mkRun (Done None) l c []) /\
  (well_formed l = true ->
   let u1 := Unlock env l c in
   let u2 := Unlock env (final u1) (cursor u1) in
   (exists err, outcome u1 = Done err) /\
   u2 = mkRun (Done None) (final u1) (cursor u1) [] /\
   (count is_delete (events u1 ++ events u2) <= 1)%nat).
Proof.
  assert (Hidle : forall l c, held l = false ->
                    Unlock env l c = mkRun (Done None) l c []).
  { intros l0 c0 Hh. unfold Unlock. run_simpl. rewrite Hh. reflexivity. }
  split; [apply Hidle|].
  intros Hwf u1 u2. subst u2 u1.
  destruct (held l) eqn:Hheld.
  - destruct (Unlock_held_run env l c Hheld Hwf)
      as (err & l' & c' & v & gevs & dels & Hrun & Hh & _ & _ & _ & Hans & Hdels).
    rewrite Hrun. cbn [outcome final cursor events].
    split; [eauto|]. rewrite (Hidle l' c' Hh). split; [reflexivity|].
    cbn [events]. rewrite app_nil_r, !count_app.
    destruct (get_answer_kinds _ _ _ Hans) as [_ Hnd].
    rewrite (count_none _ gevs Hnd).
    assert (Hcl : count is_delete (closes l) = O)
      by (unfold closes; destruct (stopped l); reflexivity).
    rewrite Hcl.
    destruct Hdels as [->|(r & tag & req & resp & _ & _ & _ & ->)]; cbn; lia.
  - rewrite (Hidle l c Hheld). cbn [outcome final cursor events].
    split; [eauto|]. rewrite (Hidle l c Hheld). split; [reflexivity|].
    cbn. lia.
Qed.

(** ** What the methods keep of the lock *)

Lemma same_trans l l1 l2 :
  same_but_cache l l1 -> same_but_cache l1 l2 -> same_but_cache l l2.
Proof. unfold same_but_cache. intros H1 H2. rewrite H2, H1. reflexivity. Qed.

(** [writeLock] always returns, and touches nothing of the lock but its
    cache. *)
Lemma writeLock_returns env l c :
  exists v l' c' evs,
    writeLock env l c = mkRun (Done v) l' c' evs /\ same_but_cache l l'.
Proof.
  destruct (writeLock_run env l c) as (v & l1 & c1 & evs & _ & _ & Hsame & Hw).
  destruct v as [early|snapshot].
  - destruct Hw as [_ Hw]. rewrite Hw. eauto 6.
  - destruct Hw as (lc & _ & _ & Hw).
    destruct (writeLock_put_run env lc l1 c1) as (v & l' & c' & evs' & Hput & Hs' & _).
    rewrite Hw, Hput. cbn [prepend outcome final cursor events].
    eexists _, _, _, _. split; [reflexivity|]. eauto using same_trans.
Qed.

Lemma attemptLock_same env fuel : forall l c,
  same_but_cache l (final (attemptLock env fuel l c)).
Proof.
  induction fuel as [|fuel IH]; intros l c; cbn [attemptLock].
  - apply same_refl.
  - unfold select_ticker_cancel. rewrite bind_run. cbn [outcome final cursor events].
    destruct (select_wake env (n_select c)); run_simpl; [|apply same_refl].
    destruct (writeLock_returns env l (bump_select c))
      as ([acquired err] & l' & c' & evs & Hw & Hsame).
    erewrite bind_done by exact Hw. cbv beta iota.
    destruct err as [e|]; run_simpl; [exact Hsame|].
    destruct acquired; cbn [negb]; run_simpl; [exact Hsame|].
    cbn [prepend final]. eapply same_trans; [exact Hsame|apply IH].
Qed.

Lemma LockWith_well_formed env b k v c l :
  fst (LockWith env b k v c) = Ok l -> well_formed l = true /\ held l = false.
Proof.
  unfold LockWith. destruct (uuid_GenerateUUID env (n_uuid c)); [|discriminate].
  cbn. intros [= <-]. split; reflexivity.
Qed.

(** What other goroutines do at a yield leaves the configuration of the
    lock alone. *)
Lemma yield_run env l c :
  exists l',
    yield env l c = mkRun (Done tt) l' (bump_yield c) [] /\
    watchRetryMax l' = watchRetryMax l /\ identity l' = identity l /\
    ttl l' = ttl l /\ held l' = held l /\
    (well_formed l = true -> well_formed l' = true).
Proof.
  unfold yield. eexists. split; [reflexivity|].
  destruct (other_goroutines env (n_yield c)); cbn; auto 6.
  unfold foreign_stop, well_formed.
  destruct (stopCh l) eqn:Hch, (stopped l) eqn:Hs; cbn; rewrite ?Hch, ?Hs; auto 6.
Qed.

(** The turn of the watch loop that finds [retries] at the bound ends the
    loop without a look at the cache or the store. *)
Lemma watchLock_turn_gives_up env retries l c :
  watchRetryMax l - 1 <= retries ->
  outcome (watchLock_turn env retries l c) = Done Break /\
  events (watchLock_turn env retries l c) = [].
Proof.
  intros Hmax. unfold watchLock_turn.
  destruct (yield_run env l c) as (l1 & Hy & Hmax1 & _).
  erewrite bind_quiet by exact Hy. run_simpl.
  destruct (is_closed _); run_simpl; [split; reflexivity|].
  rewrite Hmax1. apply Z.leb_le in Hmax. rewrite Hmax. run_simpl. split; reflexivity.
Qed.

Lemma select_ticker_stopCh_run env l c :
  exists w l',
    select_ticker_stopCh env l c = mkRun (Done w) l' (bump_select c) [] /\
    identity l' = identity l /\ ttl l' = ttl l /\ watchRetryMax l' = watchRetryMax l.
Proof.
  unfold select_ticker_stopCh.
  destruct (stopCh l) eqn:Hch, (select_wake env (n_select c));
    eexists _, _; (split; [reflexivity|]); auto;
    unfold foreign_stop; rewrite Hch; destruct (stopped l); auto.
Qed.

(** A turn that goes on made exactly one GET; it counted one more failure
    when the GET failed, and reset the count to zero when the GET returned
    the lock's own record. *)
Lemma watchLock_turn_next env retries l c retries' :
  outcome (watchLock_turn env retries l c) = Done (Next retries') ->
  retries < watchRetryMax l - 1 /\
  exists v,
    get_answer env v (events (watchLock_turn env retries l c)) /\
    ((snd v <> None /\ retries' = retries + 1) \/
     (exists r tag, v = (Some r, tag, None) /\ Identity r = identity l /\
                    retries' = 0)).
Proof.
  unfold watchLock_turn.
  destruct (yield_run env l c) as (l1 & Hy & Hmax1 & Hid1 & _).
  erewrite bind_quiet by exact Hy. run_simpl.
  destruct (is_closed _); run_simpl; [discriminate|].
  rewrite Hmax1.
  destruct (Z.leb_spec (watchRetryMax l - 1) retries) as [Hle|Hlt]; run_simpl;
    [discriminate|].
  destruct (select_ticker_stopCh_run env l1 (bump_yield c))
    as (w & l2 & Hsel & Hid2 & _).
  erewrite bind_quiet by exact Hsel.
  destruct w; run_simpl; [|discriminate].
  destruct (yield_run env l2 (bump_select (bump_yield c))) as (l3 & Hy3 & _ & Hid3 & _).
  erewrite bind_quiet by exact Hy3. run_simpl.
  destruct (cacheNotOwnedOrStale_run env (lockRecordCache l3) l3
              (bump_yield (bump_select (bump_yield c)))) as (b & c4 & Hc & _).
  erewrite bind_quiet by exact Hc.
  destruct b; run_simpl; [discriminate|].
  destruct (get_run env l3 c4) as (v & c5 & gevs & Hget & Hans & _).
  erewrite bind_done by exact Hget.
  destruct v as [[cur tag] [e|]]; run_simpl.
  - intros [= <-]. split; [exact Hlt|].
    eexists. split; [exact Hans|]. left. split; [discriminate|reflexivity].
  - destruct cur as [r|]; run_simpl; [|discriminate].
    destruct (String.eqb_spec (Identity r) (identity l1)) as [Heq|Hne];
      run_simpl; [|discriminate].
    intros [= <-]. split; [exact Hlt|].
    eexists. split; [exact Hans|]. right. exists r, tag.
    repeat split; congruence.
Qed.

(** ** The invariant [well_formed] *)

Lemma same_well_formed l l' :
  same_but_cache l l' -> well_formed l' = well_formed l /\ held l' = held l.
Proof. intros ->. split; reflexivity. Qed.

Lemma Lock_Lock_well_formed env fuel l c :
  well_formed l = true ->
  well_formed (final (Lock_Lock env fuel l c)) = true.
Proof.
  intros Hwf. unfold Lock_Lock. run_simpl.
  destruct (held l); run_simpl; [exact Hwf|].
  pose proof (attemptLock_same env fuel l c) as Hsame.
  apply same_well_formed in Hsame as [Hw _].
  rewrite bind_run.
  destruct (outcome (attemptLock env fuel l c)) as [[acquired err]|msg|];
    cbn [final]; [|congruence|congruence].
  destruct err as [e|]; run_simpl; [congruence|].
  destruct acquired; cbn [negb]; run_simpl; [reflexivity|congruence].
Qed.

Lemma Unlock_well_formed env l c :
  well_formed l = true -> well_formed (final (Unlock env l c)) = true.
Proof.
  intros Hwf. destruct (held l) eqn:Hheld.
  - destruct (Unlock_held_run env l c Hheld Hwf)
      as (err & l' & c' & v & gevs & dels & Hrun & _ & Hs & Hch & _).
    rewrite Hrun. cbn [final]. unfold well_formed. rewrite Hs, Hch. reflexivity.
  - unfold Unlock. run_simpl. rewrite Hheld. run_simpl. exact Hwf.
Qed.

Lemma foreign_stop_well_formed l :
  well_formed l = true -> well_formed (foreign_stop l) = true.
Proof.
  unfold foreign_stop, well_formed.
  destruct (stopCh l) eqn:Hch, (stopped l) eqn:Hs; cbn; rewrite ?Hch, ?Hs; auto.
Qed.

Lemma watchLock_turn_well_formed env retries l c :
  well_formed l = true ->
  well_formed (final (watchLock_turn env retries l c)) = true /\
  exists t, outcome (watchLock_turn env retries l c) = Done t.
Proof.
  intros Hwf. unfold watchLock_turn.
  destruct (yield_run env l c) as (l1 & Hy & _ & _ & _ & _ & Hwf1).
  specialize (Hwf1 Hwf).
  erewrite bind_quiet by exact Hy. run_simpl.
  destruct (is_closed _); run_simpl; [eauto|].
  destruct (_ <=? _); run_simpl; [eauto|].
  assert (Hsel : exists w l2,
             select_ticker_stopCh env l1 (bump_yield c)
             = mkRun (Done w) l2 (bump_select (bump_yield c)) [] /\
             well_formed l2 = true).
  { unfold select_ticker_stopCh.
    destruct (stopCh l1) eqn:Hch, (select_wake env (n_select (bump_yield c)));
      eexists _, _; (split; [reflexivity|]);
      auto using foreign_stop_well_formed. }
  destruct Hsel as (w & l2 & Hsel & Hwf2).
  erewrite bind_quiet by exact Hsel.
  destruct w; run_simpl; [|eauto].
  destruct (yield_run env l2 (bump_select (bump_yield c)))
    as (l3 & Hy3 & _ & _ & _ & _ & Hwf3).
  specialize (Hwf3 Hwf2).
  erewrite bind_quiet by exact Hy3. run_simpl.
  destruct (cacheNotOwnedOrStale_run env (lockRecordCache l3) l3
              (bump_yield (bump_select (bump_yield c)))) as (b & c4 & Hc & _).
  erewrite bind_quiet by exact Hc.
  destruct b; run_simpl; [eauto|].
  destruct (get_run env l3 c4) as (v & c5 & gevs & Hget & _ & _).
  erewrite bind_done by exact Hget.
  destruct v as [[cur tag] [e|]]; run_simpl; [eauto|].
  destruct cur as [r|]; run_simpl; [|eauto].
  destruct (negb _); run_simpl; eauto.
Qed.

Lemma watchLock_loop_well_formed env fuel : forall retries l c,
  well_formed l = true ->
  well_formed (final (watchLock_loop env fuel retries l c)) = true.
Proof.
  induction fuel as [|fuel IH]; intros retries l c Hwf; cbn [watchLock_loop].
  - exact Hwf.
  - destruct (watchLock_turn_well_formed env retries l c Hwf) as (Hwf1 & t & Ht).
    rewrite bind_run, Ht. destruct t; run_simpl; [exact Hwf1|].
    cbn [prepend final]. apply IH. exact Hwf1.
Qed.

(** The watch loop keeps the lock well formed, and when it ends it leaves
    the lock marked stopped: that is the surrender. *)
Lemma watchLock_well_formed env fuel l c :
  well_formed l = true ->
  well_formed (final (watchLock env fuel l c)) = true /\
  (outcome (watchLock env fuel l c) = Done tt ->
   stopped (final (watchLock env fuel l c)) = true).
Proof.
  intros Hwf. unfold watchLock.
  pose proof (watchLock_loop_well_formed env fuel 0 l c Hwf) as Hwf1.
  rewrite bind_run.
  destruct (outcome (watchLock_loop env fuel 0 l c)) as [[]|msg|];
    cbn [final outcome]; [|split; [exact Hwf1|discriminate]..].
  set (r := watchLock_loop env fuel 0 l c) in *.
  destruct (yield_run env (final r) (cursor r)) as (l2 & Hy & _ & _ & _ & _ & Hwf2).
  specialize (Hwf2 Hwf1).
  erewrite bind_quiet by exact Hy.
  destruct (stop_run l2 (bump_yield (cursor r)) Hwf2) as (l3 & Hstop & Hs3 & Hwf3 & _).
  rewrite Hstop. cbn [prepend final outcome]. split; [exact Hwf3|]. intros _. exact Hs3.
Qed.

(** ** The watch loop over a run *)

(** Whether [get] reports an error is decided by the answer of the store
    (once a request UUID could be drawn). *)
Lemma get_error_iff env l c :
  exists v c' evs,
    get env l c = mkRun (Done v) l c' evs /\
    match uuid_GenerateUUID env (n_uuid c) with
    | Err _ => evs = [] /\ snd v <> None
    | Ok _ =>
        exists req,
          evs = [EvGetObject req (client_GetObject env (n_get c))] /\
          (snd v <> None <-> get_fails env (client_GetObject env (n_get c)) = true)
    end.
Proof.
  unfold get, get_fails. run_simpl.
  destruct (uuid_GenerateUUID env (n_uuid c)) as [id|e]; run_simpl.
  2:{ eexists _, _, _. split; [reflexivity|]. split; [reflexivity|discriminate]. }
  destruct (client_GetObject env (n_get c)) as [[body|e] tag|e [code|]]; run_simpl.
  - destruct (json_Unmarshal env body) as [r|e]; run_simpl;
      eexists _, _, _; (split; [reflexivity|]); eexists; (split; [reflexivity|]);
      cbn; split; congruence.
  - eexists _, _, _. split; [reflexivity|]. eexists. split; [reflexivity|].
    cbn; split; congruence.
  - destruct (Z.eqb_spec code http_StatusNotFound) as [->|Hc]; run_simpl;
      eexists _, _, _; (split; [reflexivity|]); eexists; (split; [reflexivity|]);
      cbn; split; congruence.
  - eexists _, _, _. split; [reflexivity|]. eexists. split; [reflexivity|].
    cbn; split; congruence.
Qed.

(** One turn makes at most one GET; it goes on with one more failure
    counted unless that GET did not fail, in which case it goes on from
    zero. *)
Lemma watchLock_turn_cases env retries l c :
  let t := watchLock_turn env retries l c in
  watchRetryMax (final t) = watchRetryMax l /\
  (count is_get (events t) <= 1)%nat /\
  (watchRetryMax l - 1 <= retries -> events t = []) /\
  forall retries',
    outcome t = Done (Next retries') ->
    retries' = retries + 1 \/
    (retries' = 0 /\
     exists req resp, In (EvGetObject req resp) (events t) /\
                      get_fails env resp = false).
Proof.
  cbv zeta. unfold watchLock_turn.
  destruct (yield_run env l c) as (l1 & Hy & Hmax1 & _).
  erewrite bind_quiet by exact Hy. run_simpl.
  destruct (is_closed _); run_simpl.
  { repeat split; auto; discriminate. }
  rewrite Hmax1.
  destruct (Z.leb_spec (watchRetryMax l - 1) retries) as [Hle|Hlt]; run_simpl.
  { repeat split; auto; discriminate. }
  destruct (select_ticker_stopCh_run env l1 (bump_yield c))
    as (w & l2 & Hsel & _ & _ & Hmax2).
  erewrite bind_quiet by exact Hsel.
  destruct w; run_simpl.
  2:{ split; [congruence|]. split; [cbn; lia|]. split; [reflexivity|discriminate]. }
  destruct (yield_run env l2 (bump_select (bump_yield c))) as (l3 & Hy3 & Hmax3 & _).
  erewrite bind_quiet by exact Hy3. run_simpl.
  destruct (cacheNotOwnedOrStale_run env (lockRecordCache l3) l3
              (bump_yield (bump_select (bump_yield c)))) as (b & c4 & Hc & _).
  erewrite bind_quiet by exact Hc.
  destruct b; run_simpl.
  { split; [congruence|]. split; [cbn; lia|]. split; [reflexivity|discriminate]. }
  destruct (get_error_iff env l3 c4) as (v & c5 & gevs & Hget & Hans).
  erewrite bind_done by exact Hget.
  assert (Hcount : (count is_get gevs <= 1)%nat).
  { destruct (uuid_GenerateUUID env (n_uuid c4)).
    - destruct Hans as (req & -> & _). cbn. lia.
    - destruct Hans as [-> _]. cbn. lia. }
  destruct v as [[cur tag] [e|]]; run_simpl.
  - split; [congruence|]. split; [exact Hcount|]. split; [lia|].
    intros r' [= <-]. now left.
  - assert (Hok : exists req resp, In (EvGetObject req resp) gevs /\
                                   get_fails env resp = false).
    { destruct (uuid_GenerateUUID env (n_uuid c4)).
      - destruct Hans as (req & -> & Hiff). exists req, (client_GetObject env (n_get c4)).
        split; [now left|]. cbn [snd] in Hiff.
        destruct (get_fails env (client_GetObject env (n_get c4))); [|reflexivity].
        exfalso. now apply (proj2 Hiff).
      - destruct Hans as [_ Hne]. now contradiction Hne. }
    destruct cur as [r|]; run_simpl.
    2:{ split; [congruence|]. split; [exact Hcount|]. split; [lia|discriminate]. }
    destruct (negb _); run_simpl;
      (split; [congruence|]); (split; [exact Hcount|]); (split; [lia|]);
      [discriminate|].
    intros r' [= <-]. right. split; [reflexivity|exact Hok].
Qed.

(** The surrender bound of the code.  In a run of the watch loop in which
    no GET succeeds, at most [watchRetryMax - 1 - retries] GETs are made:
    from [retries = 0], with the default of 4, at most three. *)
Lemma watchLock_loop_failed_gets env fuel : forall retries l c,
  (forall req resp,
     In (EvGetObject req resp) (events (watchLock_loop env fuel retries l c)) ->
     get_fails env resp = true) ->
  Z.of_nat (count is_get (events (watchLock_loop env fuel retries l c)))
    <= Z.max 0 (watchRetryMax l - 1 - retries).
Proof.
  induction fuel as [|fuel IH]; intros retries l c Hall; cbn [watchLock_loop] in *.
  - cbn. lia.
  - destruct (watchLock_turn_cases env retries l c) as (Hmax & Hcount & Hstop & Hnext).
    rewrite bind_run in *. cbv zeta in Hmax, Hcount, Hstop, Hnext.
    remember (watchLock_turn env retries l c) as t eqn:Et. clear Et.
    destruct (Z.le_gt_cases (watchRetryMax l - 1) retries) as [Hle|Hlt].
    { specialize (Hstop Hle).
      destruct (outcome t) as [[|retries']|msg|]; cbn [prepend events] in *;
        rewrite ?Hstop in *; run_simpl; cbn; try lia.
      destruct (Hnext retries' eq_refl) as [->|(_ & req & resp & Hin & _)];
        [|contradiction].
      cbn [app]. specialize (IH (retries + 1) (final t) (cursor t)).
      rewrite Hmax in IH. cbn [app] in Hall. specialize (IH Hall). lia. }
    destruct (outcome t) as [[|retries']|msg|] eqn:Ho; cbn [prepend events] in *;
      run_simpl; try lia.
    destruct (Hnext retries' eq_refl) as [->|(_ & req & resp & Hin & Hok)].
    + rewrite count_app.
      specialize (IH (retries + 1) (final t) (cursor t)).
      rewrite Hmax in IH.
      assert (Hrest : forall req resp,
                 In (EvGetObject req resp)
                    (events (watchLock_loop env fuel (retries + 1) (final t) (cursor t))) ->
                 get_fails env resp = true).
      { intros req resp Hin. apply (Hall req resp). apply in_or_app. now right. }
      specialize (IH Hrest). lia.
    + assert (Hbad : get_fails env resp = true).
      { apply (Hall req resp). apply in_or_app. now left. }
      congruence.
Qed.

(** Once [retries] is at the bound, the loop is over: no further GET. *)
Lemma watchLock_loop_gives_up env fuel retries l c :
  watchRetryMax l - 1 <= retries ->
  outcome (watchLock_loop env (S fuel) retries l c) = Done tt /\
  events (watchLock_loop env (S fuel) retries l c) = [].
Proof.
  intros Hmax. destruct (watchLock_turn_gives_up env retries l c Hmax) as [Ho He].
  cbn [watchLock_loop]. rewrite bind_run, Ho. run_simpl.
  rewrite He. split; reflexivity.
Qed.

(** The scenarios start from states that the code reaches: on an empty
    bucket [LockWith] then [Lock] give the lock [leader], in each of the
    environments that continue from there. *)
Lemma leader_reached :
  forall env, In env [Scenario.cold; Scenario.put_dropped; Scenario.partitioned;
                      Scenario.moved_on] ->
    LockWith env Scenario.oci "core/lock" "https://10.0.0.1:8200" start
      = (Ok Scenario.fresh, Scenario.built) /\
    Lock_Lock env 1 Scenario.fresh Scenario.built
      = mkRun (Done (open_chan, None)) Scenario.leader Scenario.acquired
              [EvGetObject Scenario.get_request Scenario.not_found;
               EvPutObject Scenario.first_put (PutObject_ok "etag-1");
               EvGo "renewLock"; EvGo "watchLock"].
Proof.
  intros env [<-|[<-|[<-|[<-|[]]]]]; split; reflexivity.
Qed.

(** C2, on two runs.  A fresh lock that finds another instance's record
    returns [(false, nil)] without a PUT; a fresh lock that finds the bucket
    empty issues its PUT at once, with [IfNoneMatch: *]. *)
Lemma writeLock_freshness_gate_witness :
  (outcome (writeLock Scenario.incumbent Scenario.fresh Scenario.built)
     = Done (false, None) /\
   none is_put (events (writeLock Scenario.incumbent Scenario.fresh Scenario.built))) /\
  (exists req resp,
     In (EvPutObject req resp)
        (events (writeLock Scenario.cold Scenario.fresh Scenario.built)) /\
     IfNoneMatch req = Some "*" /\ IfMatch req = None).
Proof.
  split.
  - refine (proj1 (proj2 (writeLock_freshness_gate
                     Scenario.incumbent Scenario.fresh Scenario.built eq_refl
                     (Some (mkLockRecord "core/lock" "https://10.0.0.1:8200" "instance-B"))
                     (mkLockCache "etag-7" 0
                        (Some (mkLockRecord "core/lock" "https://10.0.0.1:8200"
                                            "instance-B")))
                     eq_refl)) _ _).
    + discriminate.
    + reflexivity.
  - refine (proj2 (proj2 (writeLock_freshness_gate
                     Scenario.cold Scenario.fresh Scenario.built eq_refl
                     None (mkLockCache "" 0 None) eq_refl))
                  eq_refl "instance-A" "request" eq_refl eq_refl).
Defined.



(** C4: what the code does when every GET of the watch loop fails.  The
    lock holds the default [watchRetryMax] of 4; the loop ends after three
    failed GETs, closes [stopCh], and never makes a fourth GET. *)
Theorem watchLock_surrenders_after_three_failures :
  let r := watchLock Scenario.partitioned 10 Scenario.leader Scenario.acquired in
  watchRetryMax Scenario.leader = LockWatchRetryMax /\
  LockWatchRetryMax = 4 /\
  outcome r = Done tt /\
  events r = [EvGetObject Scenario.get_request Scenario.timed_out;
              EvGetObject Scenario.get_request Scenario.timed_out;
              EvGetObject Scenario.get_request Scenario.timed_out;
              EvClose] /\
  count is_get (events r) = 3%nat /\
  stopped (final r) = true /\ stopCh (final r) = closed_chan.
Proof. vm_compute. repeat split. Qed.

(** C5, on the acquisition of a fresh lock on an empty bucket. *)
Lemma writeLock_put_precondition_witness :
  exists lc,
    outcome (writeLock_inspect Scenario.cold Scenario.fresh Scenario.built)
      = Done (inr (Some lc)) /\
    lockRecordCache (final (writeLock_inspect Scenario.cold Scenario.fresh Scenario.built))
      = Some lc /\
    ((etag lc = "" /\ IfNoneMatch Scenario.first_put = Some "*" /\
      IfMatch Scenario.first_put = None) \/
     (etag lc <> "" /\ IfMatch Scenario.first_put = Some (etag lc) /\
      IfNoneMatch Scenario.first_put = None)).
Proof.
  refine (writeLock_put_precondition Scenario.cold Scenario.fresh Scenario.built
            Scenario.first_put (PutObject_ok "etag-1") _).
  right. left. reflexivity.
Defined.



(** C7, on a lock that was never acquired and on the leader. *)
Lemma Unlock_idempotent_witness :
  Unlock Scenario.cold Scenario.fresh Scenario.built
    = mkRun (Done None) Scenario.fresh Scenario.built [] /\
  let u1 := Unlock Scenario.moved_on Scenario.leader Scenario.acquired in
  let u2 := Unlock Scenario.moved_on (final u1) (cursor u1) in
  u2 = mkRun (Done None) (final u1) (cursor u1) [] /\
  (count is_delete (events u1 ++ events u2) <= 1)%nat.
Proof.
  split.
  - exact (proj1 (Unlock_idempotent Scenario.cold Scenario.fresh Scenario.built) eq_refl).
  - destruct (proj2 (Unlock_idempotent Scenario.moved_on Scenario.leader
                       Scenario.acquired) eq_refl) as (_ & H2 & Hd).
    split; assumption.
Defined.

(** C8, amended (tunables).  [LockWith] takes no settings: it installs the
    constants, which satisfy
    [LockCacheMinAcceptableAge > ttl > renewInterval], and it fails exactly
    when no UUID can be drawn; nothing is validated. *)
Theorem LockWith_tunables env b k v c :
  match fst (LockWith env b k v c) with
  | Ok l =>
      uuid_GenerateUUID env (n_uuid c) = Ok (identity l) /\
      renewInterval l = LockRenewInterval /\
      retryInterval l = LockRetryInterval /\
      ttl l = LockTTL /\
      watchRetryInterval l = LockWatchRetryInterval /\
      watchRetryMax l = LockWatchRetryMax /\
      LockCacheMinAcceptableAge > ttl l /\ ttl l > renewInterval l
  | Err e =>
      exists e0, uuid_GenerateUUID env (n_uuid c) = Err e0 /\
                 e = errwrap_Wrapf "Lock with: {{err}}" e0
  end.
Proof.
  unfold LockWith.
  destruct (uuid_GenerateUUID env (n_uuid c)) as [id|e0]; cbn.
  - repeat split.
  - eauto.
Qed.

(** C8 as stated fails: a lock whose TTL was overwritten with one second,
    below its renew interval of three seconds, is not refused; [Lock]
    acquires it and starts the two loops. *)
Lemma Lock_starts_with_violating_ttl :
  let l := set_ttl (1 * time.Second) Scenario.fresh in
  let r := Lock_Lock Scenario.cold 1 l Scenario.built in
  ~ (LockCacheMinAcceptableAge > ttl l /\ ttl l > renewInterval l) /\
  outcome r = Done (open_chan, None) /\
  held (final r) = true /\
  events r = [EvGetObject Scenario.get_request Scenario.not_found;
              EvPutObject Scenario.first_put (PutObject_ok "etag-1");
              EvGo "renewLock"; EvGo "watchLock"].
Proof.
  cbv zeta. split; [|vm_compute; repeat split].
  intros [_ H]. vm_compute in H. discriminate.
Qed.

(** C9, on the acquisition of a fresh lock on an empty bucket. *)
Lemma writeLock_success_cache_witness :
  exists before req tag' t,
    events (writeLock Scenario.cold Scenario.fresh Scenario.built)
      = (before ++ [EvPutObject req (PutObject_ok tag')])%list /\
    final (writeLock Scenario.cold Scenario.fresh Scenario.built)
      = set_lockRecordCache
          (Some (mkLockCache tag' t (Some (own_record Scenario.fresh))))
          Scenario.fresh.
Proof.
  destruct (writeLock_success_cache Scenario.cold Scenario.fresh Scenario.built eq_refl)
    as (before & req & tag' & t & Hev & _ & _ & Hfinal & _).
  exists before, req, tag', t. split; assumption.
Defined.

(** C10, on the same run, and on a takeover: with "etag-1" in the snapshot
    and a GET that returns the record of another instance under "etag-7",
    the read stores and hands over an entry under "etag-7". *)
Lemma writeLock_snapshot_never_nil_witness :
  (exists lc,
     Some (mkLockCache "" 0 None) = Some lc /\
     lockRecordCache (final (writeLock_inspect Scenario.cold Scenario.fresh Scenario.built))
       = Some lc) /\
  lockRecordCache
    (final (writeLock_read Scenario.incumbent (lockRecordCache Scenario.leader)
              Scenario.leader Scenario.acquired))
  = Some (mkLockCache "etag-7" (time_Now Scenario.incumbent (n_now Scenario.acquired))
            (Some (mkLockRecord "core/lock" "https://10.0.0.1:8200" "instance-B"))).
Proof.
  split.
  - exact (proj1 (writeLock_snapshot_never_nil Scenario.cold Scenario.fresh
                    Scenario.built) (Some (mkLockCache "" 0 None)) eq_refl).
  - refine (proj2 (proj1 (proj2
              (proj1 (proj2 (writeLock_snapshot_never_nil Scenario.incumbent
                               Scenario.leader Scenario.acquired))
                     (lockRecordCache Scenario.leader)
                     (Some (mkLockRecord "core/lock" "https://10.0.0.1:8200"
                                         "instance-B"))
                     "etag-7" eq_refl)) _)).
    right. eexists. split; [reflexivity|]. discriminate.
Defined.

(** * Beyond the design document *)

(** ** Frames of the methods *)

Section Frames.

Context {allowed : Event -> bool} {R : Lock -> Lock -> Prop}
        {K : Cursor -> Cursor -> Prop}.
Hypothesis R_refl : forall l, R l l.
Hypothesis R_trans : forall l1 l2 l3, R l1 l2 -> R l2 l3 -> R l1 l3.
Hypothesis K_refl : forall c, K c c.
Hypothesis K_trans : forall c1 c2 c3, K c1 c2 -> K c2 c3 -> K c1 c3.

Lemma only_nil : only allowed [].
Proof. intros e []. Qed.

Lemma only_app xs ys : only allowed xs -> only allowed ys -> only allowed (xs ++ ys).
Proof. intros Hx Hy e He. apply in_app_or in He as [He|He]; auto. Qed.

Lemma frame_ret {A} (a : A) : frame allowed R K (ret a).
Proof. intros l c. cbn. repeat split; auto using only_nil. Qed.

Lemma frame_bind {A B} (m : M A) (f : A -> M B) :
  frame allowed R K m -> (forall a, frame allowed R K (f a)) ->
  frame allowed R K (bind m f).
Proof.
  intros Hm Hf l c. destruct (Hm l c) as (He & Hr & Hk).
  rewrite bind_run.
  destruct (outcome (m l c)) as [a|msg|] eqn:Ho.
  - destruct (Hf a (final (m l c)) (cursor (m l c))) as (He' & Hr' & Hk').
    cbn [prepend outcome final cursor events].
    repeat split; eauto using only_app.
  - cbn. auto.
  - cbn. auto.
Qed.

Lemma frame_out_of_fuel {A} : frame allowed R K (@out_of_fuel A).
Proof. intros l c. cbn. repeat split; auto using only_nil. Qed.

Lemma frame_panic {A} msg : frame allowed R K (@panic A msg).
Proof. intros l c. cbn. repeat split; auto using only_nil. Qed.

End Frames.

(** A frame may be loosened. *)
Lemma frame_weaken {A} (allowed allowed' : Event -> bool)
      (R R' : Lock -> Lock -> Prop) (K K' : Cursor -> Cursor -> Prop) (m : M A) :
  frame allowed R K m ->
  (forall e, allowed e = true -> allowed' e = true) ->
  (forall l l', R l l' -> R' l l') ->
  (forall c c', K c c' -> K' c c') ->
  frame allowed' R' K' m.
Proof.
  intros Hm Ha Hr Hk l c. destruct (Hm l c) as (He & Hr0 & Hk0).
  repeat split; auto. intros e Hin. auto.
Qed.

(** A call into the environment, or a plain step on the lock: read its
    frame off the run. *)
Ltac frame_prim :=
  let l := fresh "l" in
  let c := fresh "c" in
  intros l c;
  unfold this, modify, emit, Now, GenerateUUID, GetObject, PutObject, DeleteObject,
    time_Sleep, loadLockRecordCache, storeLockRecordCache, select_ticker_cancel;
  cbn;
  split; [intros ? Hin; cbn in Hin;
          repeat (destruct Hin as [<-|Hin]; [reflexivity|]); contradiction|];
  split;
    first [ reflexivity | solve [auto with frames]
          | red; cbn; repeat split; reflexivity
          | red; unfold same_config; cbn; repeat split; reflexivity ].

(** Walk through the binds and the case distinctions of a method. *)
Ltac frame_walk Rr Rt Kr Kt :=
  repeat first
    [ solve [auto with frames]
    | apply (frame_ret Rr Kr)
    | apply (frame_out_of_fuel Rr Kr)
    | apply (frame_panic Rr Kr)
    | apply (frame_bind Rt Kt); [|intros ?]
    | match goal with
      | |- frame _ _ _ (match ?x with _ => _ end) => destruct x
      | |- frame _ _ _ (let (_, _) := ?x in _) => destruct x
      end
    | progress cbv zeta
    | solve [frame_prim] ].

Create HintDb frames.

Lemma reads_only_refl c : reads_only c c.
Proof. repeat split. Qed.

Lemma reads_only_trans c1 c2 c3 :
  reads_only c1 c2 -> reads_only c2 c3 -> reads_only c1 c3.
Proof. intros (?&?&?&?) (?&?&?&?). repeat split; congruence. Qed.

Lemma write_counters_refl c : write_counters c c.
Proof. repeat split. Qed.

Lemma write_counters_trans c1 c2 c3 :
  write_counters c1 c2 -> write_counters c2 c3 -> write_counters c1 c3.
Proof. intros (?&?&?) (?&?&?). repeat split; congruence. Qed.

Lemma lock_counters_refl c : lock_counters c c.
Proof. repeat split. Qed.

Lemma lock_counters_trans c1 c2 c3 :
  lock_counters c1 c2 -> lock_counters c2 c3 -> lock_counters c1 c3.
Proof. intros (?&?) (?&?). repeat split; congruence. Qed.

Lemma watch_counters_refl c : watch_counters c c.
Proof. repeat split. Qed.

Lemma watch_counters_trans c1 c2 c3 :
  watch_counters c1 c2 -> watch_counters c2 c3 -> watch_counters c1 c3.
Proof. intros (?&?) (?&?). repeat split; congruence. Qed.

Lemma unlock_counters_refl c : unlock_counters c c.
Proof. repeat split. Qed.

Lemma unlock_counters_trans c1 c2 c3 :
  unlock_counters c1 c2 -> unlock_counters c2 c3 -> unlock_counters c1 c3.
Proof. intros (?&?&?) (?&?&?). repeat split; congruence. Qed.

Lemma same_config_refl l : same_config l l.
Proof. repeat split. Qed.

Lemma same_config_trans l1 l2 l3 :
  same_config l1 l2 -> same_config l2 l3 -> same_config l1 l3.
Proof.
  unfold same_config. intros H1 H2.
  decompose [and] H1. decompose [and] H2. repeat split; congruence.
Qed.

Lemma same_owner_refl l : same_owner l l.
Proof. repeat split. Qed.

Lemma same_owner_trans l1 l2 l3 :
  same_owner l1 l2 -> same_owner l2 l3 -> same_owner l1 l3.
Proof.
  intros [H1 Hh1] [H2 Hh2]. split; [eauto using same_config_trans|congruence].
Qed.

Lemma same_config_cache_refl l : same_config_cache l l.
Proof. repeat split. Qed.

Lemma same_config_cache_trans l1 l2 l3 :
  same_config_cache l1 l2 -> same_config_cache l2 l3 -> same_config_cache l1 l3.
Proof.
  intros [H1 Hh1] [H2 Hh2]. split; [eauto using same_config_trans|congruence].
Qed.

Lemma same_but_cache_config l l' : same_but_cache l l' -> same_owner l l'.
Proof. intros ->. repeat split. Qed.

Lemma eq_trans_lock (l1 l2 l3 : Lock) : l1 = l2 -> l2 = l3 -> l1 = l3.
Proof. congruence. Qed.

#[local] Hint Resolve same_refl same_set : frames.

(** [get] makes GETs only, returns the lock as it found it, and consumes no
    answer to a PUT, a DELETE, a select or a yield. *)
Lemma get_frame env : frame is_get eq reads_only (get env).
Proof.
  unfold get.
  frame_walk (@eq_refl Lock) eq_trans_lock reads_only_refl reads_only_trans.
Qed.

Lemma get_frame_write env : frame write_kinds same_but_cache write_counters (get env).
Proof.
  apply (frame_weaken _ _ _ _ _ _ _ (get_frame env)).
  - intros e He. unfold write_kinds. now rewrite He.
  - intros l l' <-. apply same_refl.
  - intros c c' (?&?&?&?). repeat split; assumption.
Qed.
#[local] Hint Resolve get_frame_write : frames.

Ltac write_walk :=
  frame_walk same_refl same_trans write_counters_refl write_counters_trans.

Lemma cacheNotOwnedOrStale_frame env snapshot :
  frame write_kinds same_but_cache write_counters (cacheNotOwnedOrStale env snapshot).
Proof. unfold cacheNotOwnedOrStale. write_walk. Qed.
#[local] Hint Resolve cacheNotOwnedOrStale_frame : frames.

Lemma writeLock_read_frame env snapshot :
  frame write_kinds same_but_cache write_counters (writeLock_read env snapshot).
Proof. unfold writeLock_read. write_walk. Qed.
#[local] Hint Resolve writeLock_read_frame : frames.

Lemma writeLock_gate_frame env cur snapshot :
  frame write_kinds same_but_cache write_counters (writeLock_gate env cur snapshot).
Proof. unfold writeLock_gate. write_walk. Qed.
#[local] Hint Resolve writeLock_gate_frame : frames.

Lemma writeLock_inspect_frame env :
  frame write_kinds same_but_cache write_counters (writeLock_inspect env).
Proof. unfold writeLock_inspect. write_walk. Qed.
#[local] Hint Resolve writeLock_inspect_frame : frames.

Lemma writeLock_putLoop_frame env left : forall i req err tag,
  frame write_kinds same_but_cache write_counters
        (writeLock_putLoop env left i req err tag).
Proof.
  induction left as [|left IH]; intros i req err tag; cbn [writeLock_putLoop];
    write_walk.
Qed.
#[local] Hint Resolve writeLock_putLoop_frame : frames.

Lemma writeLock_put_frame env snapshot :
  frame write_kinds same_but_cache write_counters (writeLock_put env snapshot).
Proof. unfold writeLock_put. write_walk. Qed.
#[local] Hint Resolve writeLock_put_frame : frames.

Lemma writeLock_frame env :
  frame write_kinds same_but_cache write_counters (writeLock env).
Proof. unfold writeLock. write_walk. Qed.

Lemma foreign_stop_owner l : same_owner l (foreign_stop l).
Proof.
  unfold foreign_stop. destruct (stopCh l), (stopped l); repeat split.
Qed.

Lemma foreign_stop_cache l : lockRecordCache (foreign_stop l) = lockRecordCache l.
Proof. unfold foreign_stop. destruct (stopCh l), (stopped l); reflexivity. Qed.

Lemma yield_frame env (allowed : Event -> bool) (K : Cursor -> Cursor -> Prop) :
  (forall c, K c (bump_yield c)) ->
  frame allowed same_owner K (yield env).
Proof.
  intros HK l c. unfold yield. cbn. split; [intros e []|]. split; [|apply HK].
  destruct (other_goroutines env (n_yield c)); auto using foreign_stop_owner.
  - repeat split.
  - repeat split.
Qed.

Lemma select_ticker_stopCh_frame env (allowed : Event -> bool)
      (K : Cursor -> Cursor -> Prop) :
  (forall c, K c (bump_select c)) ->
  frame allowed same_owner K (select_ticker_stopCh env).
Proof.
  intros HK l c. unfold select_ticker_stopCh.
  destruct (stopCh l) eqn:Hch, (select_wake env (n_select c)); cbn;
    (split; [intros e []|]); (split; [|apply HK]);
    auto using foreign_stop_owner, same_owner_refl.
Qed.

Lemma stop_frame (allowed : Event -> bool) (K : Cursor -> Cursor -> Prop) :
  (forall c, K c c) -> allowed EvClose = true ->
  frame allowed same_owner K stop.
Proof.
  intros HK Hclose l c. unfold stop, close_stopCh, bind, this, modify, ret.
  destruct (stopped l); cbn.
  - split; [intros e []|]. split; [apply same_owner_refl|apply HK].
  - destruct (stopCh l); cbn;
      (split; [intros e Hin; cbn in Hin;
               repeat (destruct Hin as [<-|Hin]; [assumption|]); contradiction|]);
      (split; [repeat split|apply HK]).
Qed.

(** *** The write path inside the loops *)

Lemma writeLock_frame_owner env :
  frame write_kinds same_owner lock_counters (writeLock env).
Proof.
  apply (frame_weaken _ _ _ _ _ _ _ (writeLock_frame env)).
  - auto.
  - apply same_but_cache_config.
  - intros c c' (?&?&?). split; assumption.
Qed.

Lemma renewLock_frame env fuel :
  frame write_kinds same_owner lock_counters (renewLock env fuel).
Proof.
  pose proof (writeLock_frame_owner env) as Hw.
  pose proof (select_ticker_stopCh_frame env write_kinds lock_counters
                ltac:(intros c; split; reflexivity)) as Hs.
  induction fuel as [|fuel IH]; cbn [renewLock];
    frame_walk same_owner_refl same_owner_trans lock_counters_refl lock_counters_trans.
Qed.

Lemma same_owner_config l l' : same_owner l l' -> same_config l l'.
Proof. now intros [H _]. Qed.

Lemma attemptLock_frame env fuel :
  frame write_kinds same_but_cache lock_counters (attemptLock env fuel).
Proof.
  assert (Hw : frame write_kinds same_but_cache lock_counters (writeLock env)).
  { apply (frame_weaken _ _ _ _ _ _ _ (writeLock_frame env)); auto.
    intros c c' (?&?&?). split; assumption. }
  induction fuel as [|fuel IH]; cbn [attemptLock];
    frame_walk same_refl same_trans lock_counters_refl lock_counters_trans.
Qed.

Lemma Lock_Lock_frame env fuel :
  frame lock_kinds same_config lock_counters (Lock_Lock env fuel).
Proof.
  assert (Ha : frame lock_kinds same_config lock_counters (attemptLock env fuel)).
  { apply (frame_weaken _ _ _ _ _ _ _ (attemptLock_frame env fuel)); auto.
    - intros e He. unfold lock_kinds. now rewrite He.
    - intros l l' H. apply same_owner_config, same_but_cache_config, H. }
  unfold Lock_Lock.
  frame_walk same_config_refl same_config_trans lock_counters_refl lock_counters_trans.
Qed.

Lemma get_frame_watch env : frame watch_kinds same_owner watch_counters (get env).
Proof.
  apply (frame_weaken _ _ _ _ _ _ _ (get_frame env)).
  - intros e He. unfold watch_kinds. now rewrite He.
  - intros l l' <-. apply same_owner_refl.
  - intros c c' (?&?&?&?). split; assumption.
Qed.

Lemma cacheNotOwnedOrStale_frame_watch env snapshot :
  frame watch_kinds same_owner watch_counters (cacheNotOwnedOrStale env snapshot).
Proof.
  unfold cacheNotOwnedOrStale.
  frame_walk same_owner_refl same_owner_trans watch_counters_refl watch_counters_trans.
Qed.

Lemma watchLock_turn_frame env retries :
  frame watch_kinds same_owner watch_counters (watchLock_turn env retries).
Proof.
  pose proof (get_frame_watch env) as Hg.
  pose proof (cacheNotOwnedOrStale_frame_watch env) as Hc.
  pose proof (yield_frame env watch_kinds watch_counters
                ltac:(intros c; split; reflexivity)) as Hy.
  pose proof (select_ticker_stopCh_frame env watch_kinds watch_counters
                ltac:(intros c; split; reflexivity)) as Hs.
  unfold watchLock_turn.
  frame_walk same_owner_refl same_owner_trans watch_counters_refl watch_counters_trans.
Qed.

Lemma watchLock_loop_frame env fuel : forall retries,
  frame watch_kinds same_owner watch_counters (watchLock_loop env fuel retries).
Proof.
  induction fuel as [|fuel IH]; intros retries; cbn [watchLock_loop].
  - apply (frame_out_of_fuel same_owner_refl watch_counters_refl).
  - pose proof (watchLock_turn_frame env retries) as Ht.
    frame_walk same_owner_refl same_owner_trans watch_counters_refl
               watch_counters_trans.
Qed.

Lemma watchLock_frame env fuel :
  frame watch_kinds same_owner watch_counters (watchLock env fuel).
Proof.
  pose proof (watchLock_loop_frame env fuel 0) as Hl.
  pose proof (yield_frame env watch_kinds watch_counters
                ltac:(intros c; split; reflexivity)) as Hy.
  pose proof (stop_frame watch_kinds watch_counters watch_counters_refl eq_refl) as Hs.
  unfold watchLock.
  frame_walk same_owner_refl same_owner_trans watch_counters_refl watch_counters_trans.
Qed.

Lemma Lock_Value_frame env : frame is_get eq reads_only (Lock_Value env).
Proof.
  pose proof (get_frame env) as Hg. unfold Lock_Value.
  frame_walk (@eq_refl Lock) eq_trans_lock reads_only_refl reads_only_trans.
Qed.

Lemma Unlock_frame env :
  frame unlock_kinds same_config_cache unlock_counters (Unlock env).
Proof.
  assert (Hg : frame unlock_kinds same_config_cache unlock_counters (get env)).
  { apply (frame_weaken _ _ _ _ _ _ _ (get_frame env)).
    - intros e He. unfold unlock_kinds. now rewrite He.
    - intros l l' <-. apply same_config_cache_refl.
    - intros c c' (?&?&?&?). repeat split; assumption. }
  assert (Hs : frame unlock_kinds same_config_cache unlock_counters stop).
  { intros l c. unfold stop, close_stopCh, bind, this, modify, ret.
    destruct (stopped l); cbn.
    - split; [intros e []|]. split; repeat split.
    - destruct (stopCh l); cbn;
        (split; [intros e Hin; cbn in Hin;
                 repeat (destruct Hin as [<-|Hin]; [reflexivity|]); contradiction|]);
        split; repeat split. }
  unfold Unlock.
  frame_walk same_config_cache_refl same_config_cache_trans unlock_counters_refl
             unlock_counters_trans.
Qed.

(** ** Value *)

Lemma get_answer_count env a evs : get_answer env a evs -> (count is_get evs <= 1)%nat.
Proof. intros []; cbn; lia. Qed.

(** X1 (Value).  [Value] makes the one call of [get] and nothing else,
    and returns the lock as it found it.  When the GET is answered by a
    body that decodes to a record, [Value] returns
    [(true, record.Value, nil)]; when it is answered by a 404, [Value]
    returns [(false, "", nil)]: absent, without error; and an error of
    [get] (no request id, or a failed GET) is returned as it is, not
    wrapped again, with [(false, "")]. *)
Theorem Lock_Value_result env l c :
  let v := Lock_Value env l c in
  let g := get env l c in
  final v = l /\
  events v = events g /\
  (count is_get (events v) <= 1)%nat /\
  only is_get (events v) /\
  (forall lockRecord tag e,
     outcome g = Done (lockRecord, tag, Some e) ->
     outcome v = Done (false, "", Some e)) /\
  (forall req body tag r,
     In (EvGetObject req (GetObject_ok (Ok body) tag)) (events v) ->
     json_Unmarshal env body = Ok r ->
     outcome v = Done (true, Value r, None)) /\
  (forall req e,
     In (EvGetObject req (GetObject_err e (Some http_StatusNotFound))) (events v) ->
     outcome v = Done (false, "", None)) /\
  (forall req resp,
     In (EvGetObject req resp) (events v) ->
     get_fails env resp = true ->
     exists e, outcome v = Done (false, "", Some e)) /\
  (events v = [] -> exists e, outcome v = Done (false, "", Some e)).
Proof.
  cbv zeta. destruct (Lock_Value_frame env l c) as (Honly & _ & _).
  destruct (get_run env l c) as (a & c' & evs & Hget & Hans & _).
  assert (Hv : Lock_Value env l c
               = prepend evs
                   (match a with
                    | (_, _, Some e) => ret (false, "", Some e)
                    | (Some r, _, None) => ret (true, Value r, None)
                    | (None, _, None) => ret (false, "", None)
                    end l c')).
  { unfold Lock_Value. erewrite bind_done by exact Hget.
    destruct a as [[[r|] tag] [e|]]; reflexivity. }
  assert (Hfin : final (Lock_Value env l c) = l /\
                 events (Lock_Value env l c) = evs).
  { rewrite Hv. destruct a as [[[r|] tag] [e|]]; run_simpl; auto. }
  destruct Hfin as [Hfin Hev].
  rewrite Hev in *. rewrite Hget. cbn [outcome events].
  split; [exact Hfin|]. split; [reflexivity|].
  split; [eauto using get_answer_count|]. split; [exact Honly|].
  assert (Hcases :
            match uuid_GenerateUUID env (n_uuid c) with
            | Ok id =>
                exists req,
                  evs = [EvGetObject req (client_GetObject env (n_get c))] /\
                  (forall body tag r,
                     client_GetObject env (n_get c) = GetObject_ok (Ok body) tag ->
                     json_Unmarshal env body = Ok r -> a = (Some r, tag, None)) /\
                  (forall e,
                     client_GetObject env (n_get c)
                     = GetObject_err e (Some http_StatusNotFound) ->
                     a = (None, "", None)) /\
                  (get_fails env (client_GetObject env (n_get c)) = true ->
                   exists e, a = (None, "", Some e))
            | Err e => evs = [] /\ exists e', a = (None, "", Some e')
            end).
  { destruct (uuid_GenerateUUID env (n_uuid c)) as [id|e] eqn:Hu.
    - destruct (get_by_response env l c id Hu) as (a' & Hget' & Hfacts).
      rewrite Hget in Hget'. injection Hget' as <- _ ->. eauto.
    - rewrite (get_without_request_id env l c e Hu) in Hget.
      injection Hget as <- _ <-. eauto. }
  rewrite Hv. clear Hv Hget Hev.
  split; [intros lockRecord tag e [= ->]; destruct lockRecord; reflexivity|].
  destruct (uuid_GenerateUUID env (n_uuid c)) as [id|e0].
  - destruct Hcases as (req0 & -> & Hfound & Habsent & Hfails).
    split; [|split; [|split]].
    + intros req body tag r [[= _ Hresp]|[]] Hbody.
      rewrite (Hfound _ _ _ Hresp Hbody). reflexivity.
    + intros req e [[= _ Hresp]|[]].
      rewrite (Habsent _ Hresp). reflexivity.
    + intros req resp [[= _ <-]|[]] Hf.
      destruct (Hfails Hf) as (e & ->). exists e. reflexivity.
    + discriminate.
  - destruct Hcases as (-> & e' & ->).
    split; [intros ? ? ? ? []|]. split; [intros ? ? []|].
    split; [intros ? ? []|]. intros _. exists e'. reflexivity.
Qed.

(** X1 on a run: the store holds the record of another instance. *)
Lemma Lock_Value_result_witness :
  outcome (Lock_Value Scenario.incumbent Scenario.fresh Scenario.built)
  = Done (true, "https://10.0.0.1:8200", None).
Proof.
  refine (proj1 (proj2 (proj2 (proj2 (proj2 (proj2
            (Lock_Value_result Scenario.incumbent Scenario.fresh Scenario.built))))))
            Scenario.get_request "instance-B" "etag-7"
            (mkLockRecord "core/lock" "https://10.0.0.1:8200" "instance-B") _ eq_refl).
  left. reflexivity.
Defined.

(** ** writeLock: what a call touches, and its retries *)

(** The inspection phase makes at most the one GET of its read. *)
Lemma writeLock_inspect_gets env l c :
  events (writeLock_inspect env l c) = [] \/
  exists a, get_answer env a (events (writeLock_inspect env l c)).
Proof.
  unfold writeLock_inspect. run_simpl.
  destruct (cacheNotOwnedOrStale_run env (lockRecordCache l) l c) as (b & c0 & Hc & _).
  erewrite bind_quiet by exact Hc.
  destruct b; run_simpl; [|now left].
  destruct (writeLock_read_run env (lockRecordCache l) l c0)
    as ([[cur tag] err] & c1 & evs & _ & Hans & _ & Hread).
  rewrite bind_run, Hread. right. exists (cur, tag, err).
  destruct err as [e|]; run_simpl; [exact Hans|].
  destruct (refreshes (lockRecordCache l) tag); run_simpl.
  - rewrite bind_run, writeLock_gate_run.
    destruct cur as [r|]; run_simpl; [split_ltb; run_simpl|]; exact Hans.
  - destruct (lockRecordCache l) as [lc0|];
      [rewrite bind_run, writeLock_gate_run|];
      destruct cur as [r|]; run_simpl; try split_ltb; run_simpl; exact Hans.
Qed.

(** The PUT phase either succeeds on its first attempt, or returns an error
    and leaves the lock as it was. *)
Lemma writeLock_put_cases env lc l c :
  exists v l' c' evs,
    writeLock_put env (Some lc) l c = mkRun (Done v) l' c' evs /\
    none is_get evs /\
    ((v = (true, None) /\ count is_put evs = 1%nat) \/
     (exists e, v = (false, Some e) /\ l' = l)).
Proof.
  unfold writeLock_put. run_simpl.
  destruct (json_Marshal env _) as [body|e]; run_simpl.
  2:{ eexists _, _, _, _. split; [reflexivity|]. split; [intros ? []|]. eauto. }
  destruct (uuid_GenerateUUID env (n_uuid c)) as [id|e]; run_simpl.
  2:{ eexists _, _, _, _. split; [reflexivity|]. split; [intros ? []|]. eauto. }
  fold (bare_request l body id).
  destruct (writeLock_putLoop_run env LockWriteRetriesOnFailures
              (with_precondition (etag lc) (bare_request l body id))
              1 None "" l (bump_uuid c))
    as (err' & tag' & c' & evs & Hrun & _ & _ & Hshape & _ & Hone); [lia|lia|].
  erewrite bind_done by exact Hrun.
  assert (Hng : none is_get evs)
    by (eapply put_attempts_kinds; apply Hshape; discriminate).
  destruct err' as [e|]; run_simpl.
  - eexists _, _, _, _. split; [reflexivity|]. split; [exact Hng|]. eauto.
  - eexists _, _, _, _. split; [reflexivity|]. split; [exact Hng|]. left.
    split; [reflexivity|]. rewrite Hone by (reflexivity || discriminate). reflexivity.
Qed.

(** X2 (writeLock touches the cache only).  Whatever the environment
    answers, [writeLock] changes nothing of the lock but its cache entry
    ([held], the stop channel and its mark, the identity and the durations
    are as before); it makes at most one GET; every call it makes is a GET
    or a PUT (it never deletes the object and never closes [stopCh]); and
    it consumes no answer to a DELETE or a select. *)
Theorem writeLock_touches_only_cache env l c :
  let w := writeLock env l c in
  same_but_cache l (final w) /\
  only write_kinds (events w) /\
  (count is_get (events w) <= 1)%nat /\
  count is_delete (events w) = 0%nat /\
  count is_close (events w) = 0%nat /\
  n_delete (cursor w) = n_delete c /\ n_select (cursor w) = n_select c.
Proof.
  cbv zeta. destruct (writeLock_frame env l c) as (Honly & Hsame & Hd & Hs & _).
  assert (Hkinds : forall p, (forall e, write_kinds e = true -> p e = false) ->
                             count p (events (writeLock env l c)) = 0%nat).
  { intros p Hp. apply count_none. intros e He. apply Hp, Honly, He. }
  repeat split; auto.
  - destruct (writeLock_run env l c) as (v & l1 & c1 & evs & Hi & _ & _ & Hw).
    assert (Hevs : (count is_get evs <= 1)%nat).
    { pose proof (writeLock_inspect_gets env l c) as Hg. rewrite Hi in Hg.
      cbn [events] in Hg. destruct Hg as [->|[a Ha]]; [cbn; lia|].
      eauto using get_answer_count. }
    destruct v as [early|snapshot].
    + destruct Hw as [_ ->]. exact Hevs.
    + destruct Hw as (lc & _ & _ & ->).
      destruct (writeLock_put_cases env lc l1 c1) as (v & l' & c' & evs' & -> & Hng & _).
      cbn [prepend events]. rewrite count_app, (count_none _ _ Hng). lia.
  - apply Hkinds. now intros [].
  - apply Hkinds. now intros [].
Qed.

(** X3 (a retried PUT never counts).  [writeLock] returns [(true, nil)]
    only when it made exactly one PUT, which the store accepted.  Whenever
    it had to make a second PUT it returns [false] with an error, and the
    lock, cache included, is as the inspection phase left it, whatever the
    store answered to the later attempts: the error of a failed attempt
    is kept to the end of the call (lines 515 and 536). *)
Theorem writeLock_retried_put_is_an_error env l c :
  let w := writeLock env l c in
  (outcome w = Done (true, None) -> count is_put (events w) = 1%nat) /\
  ((2 <= count is_put (events w))%nat ->
   exists e, outcome w = Done (false, Some e) /\
             final w = final (writeLock_inspect env l c)).
Proof.
  cbv zeta.
  destruct (writeLock_run env l c) as (v & l1 & c1 & evs & Hi & Hnp & _ & Hw).
  rewrite Hi. cbn [final].
  destruct v as [early|snapshot].
  - destruct Hw as [Hf ->]. cbn [outcome events final]. rewrite (count_none _ _ Hnp).
    split; [intros [= ->]; discriminate|lia].
  - destruct Hw as (lc & _ & _ & ->).
    destruct (writeLock_put_cases env lc l1 c1)
      as (v & l' & c' & evs' & -> & _ & [[-> Hone]|(e & -> & ->)]);
      cbn [prepend outcome final events]; rewrite count_app, (count_none _ _ Hnp).
    + split; [intros _; exact Hone|]. rewrite Hone. cbn. lia.
    + split; [discriminate|]. eauto.
Qed.

(** X3 on a run: the renewal of the leader meets a 503, its second PUT is
    accepted, and the call still returns an error with the cache on the old
    ETag. *)
Lemma writeLock_retried_put_is_an_error_witness :
  exists e,
    outcome (writeLock flapping Scenario.leader Scenario.acquired) = Done (false, Some e) /\
    final (writeLock flapping Scenario.leader Scenario.acquired)
      = final (writeLock_inspect flapping Scenario.leader Scenario.acquired).
Proof.
  refine (proj2 (writeLock_retried_put_is_an_error flapping Scenario.leader
                   Scenario.acquired) _).
  vm_compute. lia.
Defined.

(** With a cache entry of its own within the TTL, the inspection phase
    hands the entry over as it is, without a read. *)
Lemma writeLock_inspect_fresh env l c lc r :
  lockRecordCache l = Some lc ->
  lockRecord lc = Some r ->
  Identity r = identity l ->
  time.Sub (time_Now env (n_now c)) (lastUpdate lc) <= ttl l ->
  writeLock_inspect env l c = mkRun (Done (inr (Some lc))) l (bump_now c) [].
Proof.
  intros Hl Hr Hid Hfresh.
  unfold writeLock_inspect, cacheNotOwnedOrStale. run_simpl.
  rewrite Hl, Hr, Hid, String.eqb_refl. run_simpl.
  apply Z.ltb_ge in Hfresh. rewrite Hfresh. run_simpl. reflexivity.
Qed.

(** When the inspection phase made no call, [writeLock] makes no GET, and
    its PUTs carry the ETag of the entry handed over. *)
Lemma writeLock_after_quiet_inspect env l c c1 lc :
  writeLock_inspect env l c = mkRun (Done (inr (Some lc))) l c1 [] ->
  none is_get (events (writeLock env l c)) /\
  forall req resp,
    In (EvPutObject req resp) (events (writeLock env l c)) ->
    (etag lc = "" /\ IfNoneMatch req = Some "*" /\ IfMatch req = None) \/
    (etag lc <> "" /\ IfMatch req = Some (etag lc) /\ IfNoneMatch req = None).
Proof.
  intros Hin.
  unfold writeLock. erewrite bind_quiet by exact Hin. cbv beta iota.
  destruct (writeLock_put_run env lc l c1)
    as (v & l' & c' & evs & -> & _ & Hshape).
  cbn [events].
  destruct (json_Marshal env (own_record l)) as [body|e];
    [destruct (uuid_GenerateUUID env (n_uuid c1)) as [id|e]|];
    try (destruct Hshape as [-> _]; split; [apply none_nil|intros ? ? []]).
  destruct Hshape as [Hshape _].
  split; [eapply put_attempts_kinds; exact Hshape|].
  intros req resp Hput.
  destruct (same_headers_precondition _ _ (put_attempts_request _ _ _ _ _ Hshape Hput))
    as [-> ->].
  now apply with_precondition_cases.
Qed.

(** X4 (a renewal skips the read and the gate).  When the cache holds an
    entry whose record names the lock itself and which is within the TTL at
    the clock reading of the call, [writeLock] makes no GET and applies no
    freshness gate: it goes to the PUT with that entry, and every PUT it
    makes is conditioned on the cached ETag.  It does not matter whether the
    entry was stored after a PUT of the lock or after a GET that returned a
    record with the lock's identity. *)
Theorem writeLock_renewal_skips_read env l c lc r :
  lockRecordCache l = Some lc ->
  lockRecord lc = Some r ->
  Identity r = identity l ->
  time.Sub (time_Now env (n_now c)) (lastUpdate lc) <= ttl l ->
  let w := writeLock env l c in
  writeLock_inspect env l c = mkRun (Done (inr (Some lc))) l (bump_now c) [] /\
  none is_get (events w) /\
  forall req resp,
    In (EvPutObject req resp) (events w) ->
    (etag lc = "" /\ IfNoneMatch req = Some "*" /\ IfMatch req = None) \/
    (etag lc <> "" /\ IfMatch req = Some (etag lc) /\ IfNoneMatch req = None).
Proof.
  intros Hl Hr Hid Hfresh. cbv zeta.
  pose proof (writeLock_inspect_fresh env l c lc r Hl Hr Hid Hfresh) as Hin.
  split; [exact Hin|]. exact (writeLock_after_quiet_inspect env l c _ lc Hin).
Qed.

Lemma writeLock_renewal_skips_read_witness :
  none is_get (events (writeLock Scenario.put_dropped Scenario.leader Scenario.acquired)).
Proof.
  refine (proj1 (proj2 (writeLock_renewal_skips_read
                          Scenario.put_dropped Scenario.leader Scenario.acquired
                          (mkLockCache "etag-1" (1 * time.Second)
                             (Some (mkLockRecord "core/lock" "https://10.0.0.1:8200"
                                                 "instance-A")))
                          (mkLockRecord "core/lock" "https://10.0.0.1:8200" "instance-A")
                          eq_refl eq_refl eq_refl _))).
  vm_compute. discriminate.
Defined.

(** ** Lock and attemptLock *)

Lemma only_write_no_go evs : only write_kinds evs -> none is_go evs.
Proof. intros H e He. specialize (H e He). now destruct e. Qed.

Lemma only_lock_no_close evs :
  only lock_kinds evs -> none is_close evs /\ none is_delete evs.
Proof.
  intros H. split; intros e He; specialize (H e He); now destruct e.
Qed.

(** A successful [writeLock]: its last event is the accepted PUT, and the
    lock leaves with its own record cached under the ETag of that PUT. *)
Lemma writeLock_true_run env l c :
  outcome (writeLock env l c) = Done (true, None) ->
  exists pre req tag t,
    events (writeLock env l c) = (pre ++ [EvPutObject req (PutObject_ok tag)])%list /\
    none is_go pre /\
    final (writeLock env l c)
      = set_lockRecordCache (Some (mkLockCache tag t (Some (own_record l)))) l.
Proof.
  intros Hw.
  destruct (writeLock_frame env l c) as (Honly & _).
  destruct (writeLock_run env l c) as (v & l1 & c1 & evs & _ & _ & Hsame & Hrun).
  destruct v as [early|snapshot].
  { destruct Hrun as [Hf Hrun]. rewrite Hrun in Hw. cbn [outcome] in Hw.
    injection Hw as ->. discriminate. }
  destruct Hrun as (lc & _ & _ & Hrun).
  destruct (writeLock_put_run env lc l1 c1) as (v & l' & c' & evs' & Hput & _ & Hshape).
  rewrite Hrun, Hput in Hw, Honly |- *. cbn [prepend outcome final events] in *.
  injection Hw as ->.
  destruct (same_fields _ _ Hsame) as (Hk & Hv & Hi & _).
  rewrite (own_record_eq _ _ Hk Hv Hi) in Hshape.
  destruct (json_Marshal env (own_record l)) as [body|e];
    [destruct (uuid_GenerateUUID env (n_uuid c1)) as [id|e]|];
    try (destruct Hshape as [_ [=]]).
  destruct Hshape as [_ Hshape].
  destruct (Hshape eq_refl) as (tag' & -> & ->).
  rewrite (same_set_after _ _ _ Hsame).
  eexists evs, _, tag', _. split; [reflexivity|]. split; [|reflexivity].
  apply only_write_no_go. intros e He. apply Honly, in_or_app. now left.
Qed.

(** [attemptLock] never dereferences a nil cache snapshot; it returns
    [true] only after a successful [writeLock], and [false] without error
    only when the caller's channel was the case its last select took. *)
Lemma attemptLock_outcomes env fuel : forall l c,
  let r := attemptLock env fuel l c in
  (forall msg, outcome r <> Panic msg) /\
  (forall err, outcome r = Done (true, err) ->
     err = None /\
     exists pre req tag t,
       events r = (pre ++ [EvPutObject req (PutObject_ok tag)])%list /\
       none is_go pre /\
       final r = set_lockRecordCache
                   (Some (mkLockCache tag t (Some (own_record l)))) l) /\
  (outcome r = Done (false, None) ->
   (n_select c < n_select (cursor r))%nat /\
   select_wake env (pred (n_select (cursor r))) = StopClosed).
Proof.
  induction fuel as [|fuel IH]; intros l c; cbv zeta; cbn [attemptLock].
  - cbn. repeat split; discriminate.
  - unfold select_ticker_cancel. rewrite bind_run. cbn [outcome final cursor events].
    destruct (select_wake env (n_select c)) eqn:Hwake; run_simpl.
    2:{ repeat split; try discriminate; auto. }
    destruct (writeLock_returns env l (bump_select c))
      as ([acquired err] & l' & c' & evs & Hw & Hsame).
    destruct (writeLock_frame env l (bump_select c)) as (Honly & _ & _ & Hsel & _).
    pose proof (writeLock_true_run env l (bump_select c)) as Htrue.
    rewrite Hw in Honly, Hsel, Htrue. cbn [outcome final cursor events] in *.
    erewrite bind_done by exact Hw. cbv beta iota.
    destruct err as [e|]; run_simpl.
    { repeat split; discriminate. }
    destruct acquired; cbn [negb]; run_simpl.
    + split; [discriminate|]. split; [|discriminate].
      intros err [= <-]. split; [reflexivity|]. now apply Htrue.
    + destruct (IH l' c') as (Hp & Ht & Hf). cbv zeta in Hp, Ht, Hf.
      destruct (same_fields _ _ Hsame) as (Hk & Hv & Hi & _).
      cbn [prepend outcome final cursor events].
      split; [exact Hp|]. split.
      * intros err Ho. destruct (Ht err Ho) as (-> & pre & req & tag & t & Hev & Hgo & Hfin).
        split; [reflexivity|]. exists (evs ++ pre)%list, req, tag, t.
        rewrite Hev, app_assoc. split; [reflexivity|].
        split; [apply none_app; auto using only_write_no_go|].
        rewrite Hfin, (own_record_eq _ _ Hk Hv Hi). now apply same_set_after.
      * intros Ho. destruct (Hf Ho) as [Hlt Hstop]. split; [|exact Hstop].
        cbn [n_select bump_select] in Hsel. lia.
Qed.

(** X5 (a successful Lock).  When [Lock] returns a channel and no error,
    the lock was not held before and is held now; the channel returned is
    [stopCh], freshly made and open, with the stop mark cleared; the
    configuration of the lock is unchanged; the cache holds the lock's own
    record under the ETag with which the store accepted the last PUT; and
    the two loops are started after that PUT and nowhere else. *)
Theorem Lock_Lock_acquired env fuel l c ch :
  let r := Lock_Lock env fuel l c in
  outcome r = Done (ch, None) -> ch <> nil_chan ->
  held l = false /\ ch = open_chan /\
  held (final r) = true /\ stopped (final r) = false /\
  stopCh (final r) = open_chan /\ same_config l (final r) /\
  exists pre req tag t,
    lockRecordCache (final r) = Some (mkLockCache tag t (Some (own_record l))) /\
    events r = (pre ++ [EvPutObject req (PutObject_ok tag);
                        EvGo "renewLock"; EvGo "watchLock"])%list /\
    none is_go pre.
Proof.
  cbv zeta. unfold Lock_Lock. run_simpl.
  destruct (held l) eqn:Hheld; run_simpl.
  { intros [= <-]. }
  destruct (attemptLock_outcomes env fuel l c) as (_ & Htrue & _). cbv zeta in Htrue.
  rewrite bind_run.
  destruct (outcome (attemptLock env fuel l c)) as [[acquired err]|msg|];
    cbn [outcome]; try discriminate.
  destruct err as [e|]; run_simpl; [discriminate|].
  destruct acquired; cbn [negb]; run_simpl.
  2:{ intros [= <-] Hne. now contradiction Hne. }
  destruct (Htrue None eq_refl) as (_ & pre & req & tag & t & Hev & Hgo & Hfin).
  rewrite Hev, Hfin. cbn. intros [= <-] _.
  repeat split; auto.
  exists pre, req, tag, t. rewrite <- app_assoc. cbn. auto.
Qed.

Lemma Lock_Lock_acquired_witness :
  held (final (Lock_Lock Scenario.cold 1 Scenario.fresh Scenario.built)) = true /\
  stopCh (final (Lock_Lock Scenario.cold 1 Scenario.fresh Scenario.built)) = open_chan.
Proof.
  destruct (Lock_Lock_acquired Scenario.cold 1 Scenario.fresh Scenario.built open_chan
              eq_refl ltac:(discriminate)) as (_ & _ & Hh & _ & Hc & _).
  split; assumption.
Defined.

(** X6 (a Lock that does not acquire).  Whatever the number of turns of
    [attemptLock], [Lock] never reaches the dereference of a nil cache
    snapshot (lines 458 and 494 of its [writeLock]).  When it returns a nil
    channel, nothing of the lock but its cache entry has changed, no loop
    was started, nothing was deleted and [stopCh] was not closed.  A lock that is already held is refused with
    an error before any call is made; for a lock that is not held, a nil
    channel without error means that the last select took the caller's
    channel (cancellation). *)
Theorem Lock_Lock_not_acquired env fuel l c :
  let r := Lock_Lock env fuel l c in
  (forall msg, outcome r <> Panic msg) /\
  forall err,
    outcome r = Done (nil_chan, err) ->
    same_but_cache l (final r) /\
    none is_go (events r) /\ none is_close (events r) /\ none is_delete (events r) /\
    (held l = true ->
     events r = [] /\ cursor r = c /\ err = Some (errors_New "lock already held")) /\
    (held l = false -> err = None ->
     (n_select c < n_select (cursor r))%nat /\
     select_wake env (pred (n_select (cursor r))) = StopClosed).
Proof.
  cbv zeta.
  destruct (Lock_Lock_frame env fuel l c) as (Honly & _).
  apply only_lock_no_close in Honly as [Hnc Hnd].
  revert Hnc Hnd. unfold Lock_Lock. run_simpl.
  destruct (held l) eqn:Hheld; run_simpl.
  { intros _ _. split; [discriminate|]. intros err [= <-].
    repeat split; auto using same_refl, none_nil; discriminate. }
  destruct (attemptLock_outcomes env fuel l c) as (Hp & _ & Hcancel).
  cbv zeta in Hp, Hcancel.
  pose proof (attemptLock_same env fuel l c) as Hsame.
  destruct (attemptLock_frame env fuel l c) as (Honly & _).
  rewrite bind_run.
  destruct (outcome (attemptLock env fuel l c)) as [[acquired err0]|msg|];
    cbn [outcome]; [|now contradiction (Hp msg)|].
  2:{ intros _ _. split; discriminate. }
  assert (Hgo : none is_go (events (attemptLock env fuel l c)))
    by now apply only_write_no_go.
  destruct err0 as [e|]; run_simpl.
  { intros Hnc Hnd. split; [discriminate|]. intros err [= <-].
    repeat split; auto; discriminate. }
  destruct acquired; cbn [negb]; run_simpl.
  { intros _ _. split; [discriminate|]. cbn. discriminate. }
  intros Hnc Hnd. split; [discriminate|]. intros err [= <-].
  repeat split; auto; try discriminate; now apply Hcancel.
Qed.

Lemma Lock_Lock_not_acquired_witness :
  (n_select Scenario.built
   < n_select (cursor (Lock_Lock cancelled 3 Scenario.fresh Scenario.built)))%nat /\
  select_wake cancelled
    (pred (n_select (cursor (Lock_Lock cancelled 3 Scenario.fresh Scenario.built))))
  = StopClosed.
Proof.
  refine (proj2 (proj2 (proj2 (proj2 (proj2
            (proj2 (Lock_Lock_not_acquired cancelled 3 Scenario.fresh Scenario.built)
                   None eq_refl))))) eq_refl eq_refl).
Defined.

(** ** The renew loop *)

Lemma renewLock_outcomes env fuel : forall l c,
  let r := renewLock env fuel l c in
  (forall msg, outcome r <> Panic msg) /\
  (outcome r = Done tt ->
   (n_select c < n_select (cursor r))%nat /\
   select_wake env (pred (n_select (cursor r))) = StopClosed) /\
  (well_formed l = true ->
   well_formed (final r) = true /\
   (outcome r = Done tt -> stopped (final r) = true /\ is_closed (stopCh (final r)) = true)).
Proof.
  induction fuel as [|fuel IH]; intros l c; cbv zeta; cbn [renewLock].
  - cbn. repeat split; auto; discriminate.
  - rewrite bind_run.
    assert (Hsel : exists w l1,
               select_ticker_stopCh env l c = mkRun (Done w) l1 (bump_select c) [] /\
               (well_formed l = true -> well_formed l1 = true) /\
               (w = StopClosed ->
                select_wake env (n_select c) = StopClosed /\
                (well_formed l = true ->
                 stopped l1 = true /\ is_closed (stopCh l1) = true))).
    { unfold select_ticker_stopCh, well_formed, foreign_stop.
      destruct (stopCh l) eqn:Hch, (select_wake env (n_select c)) eqn:Hw,
               (stopped l) eqn:Hs;
        eexists _, _; (split; [reflexivity|]); cbn; rewrite ?Hch, ?Hs; cbn;
        repeat split; auto; try discriminate. }
    destruct Hsel as (w & l1 & Hsel & Hwf1 & Hstop). rewrite Hsel.
    cbn [outcome final cursor events].
    destruct w; run_simpl.
    2:{ destruct (Hstop eq_refl) as [Hwake Hclosed].
        split; [discriminate|]. split; [intros _; split; [lia|exact Hwake]|].
        intros Hwf. split; [auto|]. intros _. auto. }
    destruct (writeLock_returns env l1 (bump_select c))
      as (v & l2 & c2 & evs & Hw & Hsame).
    destruct (writeLock_frame env l1 (bump_select c)) as (_ & _ & _ & Hselc & _).
    rewrite Hw in Hselc. cbn [cursor n_select bump_select] in Hselc.
    erewrite bind_done by exact Hw.
    destruct (IH l2 c2) as (Hp & Hd & Hwf). cbv zeta in Hp, Hd, Hwf.
    cbn [prepend outcome final cursor events].
    split; [exact Hp|]. split.
    + intros Ho. destruct (Hd Ho) as [Hlt Hwake]. split; [lia|exact Hwake].
    + intros Hwf0. apply Hwf. destruct (same_well_formed _ _ Hsame) as [-> _]. auto.
Qed.

(** X7 (the renew loop never surrenders).  For any number of turns and any
    answers of the store, the renew loop makes GETs and PUTs only: it never
    deletes the object and never closes [stopCh]; on no turn does it reach
    the dereference of a nil cache snapshot (lines 458 and 494 of its
    [writeLock]); it keeps [held] and the configuration of the lock; no
    error of [writeLock] ends it: it returns only when its select took the
    stop channel.  On a well-formed lock it leaves the lock well formed, and
    when it returns the channel is closed and marked so. *)
Theorem renewLock_never_surrenders env fuel l c :
  let r := renewLock env fuel l c in
  only write_kinds (events r) /\
  same_owner l (final r) /\
  n_delete (cursor r) = n_delete c /\
  (forall msg, outcome r <> Panic msg) /\
  (outcome r = Done tt ->
   (n_select c < n_select (cursor r))%nat /\
   select_wake env (pred (n_select (cursor r))) = StopClosed) /\
  (well_formed l = true ->
   well_formed (final r) = true /\
   (outcome r = Done tt ->
    stopped (final r) = true /\ is_closed (stopCh (final r)) = true)).
Proof.
  cbv zeta. destruct (renewLock_frame env fuel l c) as (Honly & Hown & Hd & _).
  destruct (renewLock_outcomes env fuel l c) as (Hp & Hdone & Hwf).
  split; [exact Honly|]. split; [exact Hown|]. split; [exact Hd|].
  split; [exact Hp|]. split; [exact Hdone|exact Hwf].
Qed.

(** X7 on a run: two renewals, a third turn refused by the store with a
    412, and the loop goes on until the stop channel is closed. *)
Lemma renewLock_never_surrenders_witness :
  select_wake stopped_later
    (pred (n_select (cursor (renewLock stopped_later 5 Scenario.leader
                               Scenario.acquired)))) = StopClosed /\
  stopped (final (renewLock stopped_later 5 Scenario.leader Scenario.acquired)) = true.
Proof.
  pose proof (renewLock_never_surrenders stopped_later 5 Scenario.leader
                Scenario.acquired) as (_ & _ & _ & _ & Hdone & Hwf).
  split.
  - exact (proj2 (Hdone eq_refl)).
  - exact (proj1 (proj2 (Hwf eq_refl) eq_refl)).
Defined.

(** ** The watch loop: what it reads and when it ends *)

Lemma watchLock_loop_gets env fuel : forall retries,
  frame is_get same_owner watch_counters (watchLock_loop env fuel retries).
Proof.
  assert (Hg : frame is_get same_owner watch_counters (get env)).
  { apply (frame_weaken _ _ _ _ _ _ _ (get_frame env)); auto.
    - intros l l' <-. apply same_owner_refl.
    - intros c c' (?&?&?&?). split; assumption. }
  assert (Hc : forall snapshot,
             frame is_get same_owner watch_counters (cacheNotOwnedOrStale env snapshot)).
  { intros snapshot. unfold cacheNotOwnedOrStale.
    frame_walk same_owner_refl same_owner_trans watch_counters_refl
               watch_counters_trans. }
  pose proof (yield_frame env is_get watch_counters
                ltac:(intros c; split; reflexivity)) as Hy.
  pose proof (select_ticker_stopCh_frame env is_get watch_counters
                ltac:(intros c; split; reflexivity)) as Hs.
  assert (Ht : forall retries,
             frame is_get same_owner watch_counters (watchLock_turn env retries)).
  { intros retries. unfold watchLock_turn.
    frame_walk same_owner_refl same_owner_trans watch_counters_refl
               watch_counters_trans. }
  induction fuel as [|fuel IH]; intros retries; cbn [watchLock_loop];
    frame_walk same_owner_refl same_owner_trans watch_counters_refl
               watch_counters_trans.
Qed.

Lemma stop_events l c : events (stop l c) = [] \/ events (stop l c) = [EvClose].
Proof.
  unfold stop, close_stopCh, bind, this, modify, ret.
  destruct (stopped l); cbn; [now left|]. destruct (stopCh l); cbn; auto.
Qed.

(** X8 (the watch loop only reads).  For any number of turns and any
    environment, the events of [watchLock] are GETs followed by at most one
    close of [stopCh]: it never makes a PUT or a DELETE and consumes no
    answer to one; and it keeps [held] and the configuration of the lock. *)
Theorem watchLock_never_mutates_store env fuel l c :
  let w := watchLock env fuel l c in
  same_owner l (final w) /\
  n_put (cursor w) = n_put c /\ n_delete (cursor w) = n_delete c /\
  exists gets closing,
    events w = (gets ++ closing)%list /\
    only is_get gets /\
    (closing = [] \/ closing = [EvClose]).
Proof.
  cbv zeta. destruct (watchLock_frame env fuel l c) as (_ & Hown & Hp & Hd).
  split; [exact Hown|]. split; [exact Hp|]. split; [exact Hd|].
  destruct (watchLock_loop_gets env fuel 0 l c) as (Hgets & _).
  unfold watchLock. rewrite bind_run.
  set (r := watchLock_loop env fuel 0 l c) in *.
  destruct (outcome r) as [[]|msg|]; cbn [events].
  2,3: exists (events r), (@nil Event); rewrite app_nil_r; auto.
  destruct (yield_run env (final r) (cursor r)) as (l2 & Hy & _).
  erewrite bind_quiet by exact Hy.
  cbn [prepend events]. exists (events r), (events (stop l2 (bump_yield (cursor r)))).
  split; [reflexivity|]. split; [exact Hgets|apply stop_events].
Qed.

Lemma watchLock_loop_returns env fuel : forall retries l c,
  well_formed l = true ->
  outcome (watchLock_loop env fuel retries l c) = Done tt \/
  outcome (watchLock_loop env fuel retries l c) = OutOfFuel.
Proof.
  induction fuel as [|fuel IH]; intros retries l c Hwf; cbn [watchLock_loop].
  - now right.
  - destruct (watchLock_turn_well_formed env retries l c Hwf) as (Hwf1 & t & Ht).
    rewrite bind_run, Ht. destruct t; run_simpl; [now left|].
    cbn [prepend outcome]. apply IH. exact Hwf1.
Qed.

(** X9 (a safe surrender).  On a well-formed lock the watch loop does not
    panic, so it never closes a channel that is nil or already closed; it
    closes [stopCh] at most once; it leaves the lock well formed; and when
    it returns, the lock is marked stopped and, if it is held, its channel
    is closed: leadership is surrendered whichever way the loop ended. *)
Theorem watchLock_surrender env fuel l c :
  well_formed l = true ->
  let w := watchLock env fuel l c in
  (forall msg, outcome w <> Panic msg) /\
  well_formed (final w) = true /\
  (count is_close (events w) <= 1)%nat /\
  (outcome w = Done tt ->
   stopped (final w) = true /\
   (held l = true -> stopCh (final w) = closed_chan)).
Proof.
  intros Hwf. cbv zeta.
  destruct (watchLock_loop_gets env fuel 0 l c) as (Hgets & Hown & _).
  pose proof (watchLock_loop_well_formed env fuel 0 l c Hwf) as Hwf1.
  pose proof (watchLock_loop_returns env fuel 0 l c Hwf) as Hret.
  assert (Hnc : count is_close (events (watchLock_loop env fuel 0 l c)) = 0%nat).
  { apply count_none. intros e He. specialize (Hgets e He). now destruct e. }
  unfold watchLock. rewrite bind_run.
  set (r := watchLock_loop env fuel 0 l c) in *.
  destruct Hret as [Ho|Ho]; rewrite Ho.
  2:{ cbn [outcome final events]. rewrite Hnc.
      repeat split; auto; try discriminate; lia. }
  destruct (yield_run env (final r) (cursor r)) as (l2 & Hy & _ & _ & _ & Hh2 & Hwf2).
  specialize (Hwf2 Hwf1).
  erewrite bind_quiet by exact Hy.
  destruct (stop_run l2 (bump_yield (cursor r)) Hwf2)
    as (l3 & Hstop & Hs3 & Hwf3 & Hch3 & _).
  rewrite Hstop. cbn [prepend outcome final events].
  rewrite count_app, Hnc.
  split; [discriminate|]. split; [exact Hwf3|].
  split; [unfold closes; destruct (stopped l2); cbn; lia|].
  intros _. split; [exact Hs3|]. intros Hheld. apply Hch3.
  destruct Hown as [_ Hh]. congruence.
Qed.

Lemma watchLock_surrender_witness :
  stopped (final (watchLock Scenario.partitioned 10 Scenario.leader Scenario.acquired))
    = true /\
  stopCh (final (watchLock Scenario.partitioned 10 Scenario.leader Scenario.acquired))
    = closed_chan.
Proof.
  destruct (watchLock_surrender Scenario.partitioned 10 Scenario.leader Scenario.acquired
              eq_refl) as (_ & _ & _ & Hdone).
  destruct (Hdone eq_refl) as [Hs Hc]. split; [exact Hs|exact (Hc eq_refl)].
Defined.

(** X10 (no GET without a fresh cache of one's own).  A turn of the watch
    loop that makes a GET found, after its wait, a cache entry whose record
    names the lock and whose age at the clock reading of the turn is within
    the TTL.  With no entry, a nil record, a foreign identity or a stale
    entry, the turn ends the loop without any remote call. *)
Theorem watchLock_turn_get_needs_fresh_cache env retries l c :
  let t := watchLock_turn env retries l c in
  events t <> [] ->
  exists lc r,
    lockRecordCache (final t) = Some lc /\
    lockRecord lc = Some r /\
    Identity r = identity l /\
    time.Sub (time_Now env (n_now c)) (lastUpdate lc) <= ttl l.
Proof.
  cbv zeta. unfold watchLock_turn.
  destruct (yield_run env l c) as (l1 & Hy & _ & Hid1 & Httl1 & _).
  erewrite bind_quiet by exact Hy. run_simpl.
  destruct (is_closed _); run_simpl; [congruence|].
  destruct (_ <=? _); run_simpl; [congruence|].
  destruct (select_ticker_stopCh_run env l1 (bump_yield c))
    as (w & l2 & Hsel & Hid2 & Httl2 & _).
  erewrite bind_quiet by exact Hsel.
  destruct w; run_simpl; [|congruence].
  destruct (yield_run env l2 (bump_select (bump_yield c)))
    as (l3 & Hy3 & _ & Hid3 & Httl3 & _).
  erewrite bind_quiet by exact Hy3. run_simpl.
  destruct (cacheNotOwnedOrStale_run env (lockRecordCache l3) l3
              (bump_yield (bump_select (bump_yield c)))) as (b & c4 & Hc & Hb).
  erewrite bind_quiet by exact Hc.
  destruct b; run_simpl; [congruence|].
  destruct (Hb eq_refl) as (lc & r & Hl & Hr & Hid & _ & Hage).
  destruct (get_run env l3 c4) as (v & c5 & gevs & Hget & _ & _).
  erewrite bind_done by exact Hget.
  cbn [n_now bump_yield bump_select] in Hage.
  rewrite Httl3, Httl2, Httl1 in Hage. rewrite Hid3, Hid2, Hid1 in Hid.
  destruct v as [[[r0|] tag] [e|]]; run_simpl;
    try (destruct (negb _); run_simpl);
    intros _; exists lc, r; repeat split; assumption.
Qed.

Lemma watchLock_turn_get_needs_fresh_cache_witness :
  exists lc r,
    lockRecordCache (final (watchLock_turn Scenario.partitioned 0 Scenario.leader
                              Scenario.acquired)) = Some lc /\
    lockRecord lc = Some r /\
    Identity r = identity Scenario.leader /\
    time.Sub (time_Now Scenario.partitioned (n_now Scenario.acquired)) (lastUpdate lc)
      <= ttl Scenario.leader.
Proof.
  refine (watchLock_turn_get_needs_fresh_cache Scenario.partitioned 0 Scenario.leader
            Scenario.acquired _).
  vm_compute. discriminate.
Defined.

(** A turn of the watch loop emits nothing or one GET; when that GET is
    answered, without failure, by anything but a record naming the lock,
    the turn ends the loop. *)
Lemma watchLock_turn_foreign env retries l c :
  let t := watchLock_turn env retries l c in
  events t = [] \/
  exists req resp,
    events t = [EvGetObject req resp] /\
    (get_fails env resp = false ->
     names env (identity l) resp = false ->
     outcome t = Done Break).
Proof.
  cbv zeta. unfold watchLock_turn.
  destruct (yield_run env l c) as (l1 & Hy & _ & Hid1 & _).
  erewrite bind_quiet by exact Hy. run_simpl.
  destruct (is_closed _); run_simpl; [now left|].
  destruct (_ <=? _); run_simpl; [now left|].
  destruct (select_ticker_stopCh_run env l1 (bump_yield c)) as (w & l2 & Hsel & _).
  erewrite bind_quiet by exact Hsel.
  destruct w; run_simpl; [|now left].
  destruct (yield_run env l2 (bump_select (bump_yield c))) as (l3 & Hy3 & _).
  erewrite bind_quiet by exact Hy3. run_simpl.
  destruct (cacheNotOwnedOrStale_run env (lockRecordCache l3) l3
              (bump_yield (bump_select (bump_yield c)))) as (b & c4 & Hc & _).
  erewrite bind_quiet by exact Hc.
  destruct b; run_simpl; [now left|].
  destruct (get_error_iff env l3 c4) as (v & c5 & gevs & Hget & Hiff).
  destruct (get_run env l3 c4) as (v' & c5' & gevs' & Hget' & Hans & _).
  rewrite Hget in Hget'. injection Hget' as <- <- <-.
  erewrite bind_done by exact Hget.
  destruct (uuid_GenerateUUID env (n_uuid c4)) as [id|e0].
  2:{ destruct Hiff as [-> Hne]. left.
      destruct v as [[cur tag] [e|]]; run_simpl; [reflexivity|now contradiction Hne]. }
  destruct Hiff as (req0 & -> & Hiff). right.
  exists req0, (client_GetObject env (n_get c4)).
  destruct v as [[cur tag] [e|]]; run_simpl.
  - split; [reflexivity|]. intros Hok _. cbn [snd] in Hiff.
    rewrite (proj1 Hiff) in Hok by discriminate. discriminate.
  - destruct cur as [r|]; run_simpl; [|split; reflexivity].
    destruct (get_answer_found _ _ _ _ Hans) as (req1 & body & [= _ Hresp] & Hbody).
    destruct (String.eqb_spec (Identity r) (identity l1)) as [Hid|Hid]; run_simpl;
      (split; [reflexivity|]); [|reflexivity].
    intros _ Hnames. rewrite Hresp in Hnames. cbn [names] in Hnames.
    rewrite Hbody, Hid, Hid1, String.eqb_refl in Hnames. discriminate.
Qed.

(** X11 (the watch loop stops at the first foreign answer).  Whatever the
    number of turns, when a GET of the watch loop is answered without
    failure by something that is not a record naming this lock (a 404, or
    the record of another instance), that GET is the last event of the
    loop: the loop makes no further request. *)
Theorem watchLock_loop_stops_on_foreign_record env fuel :
  forall retries l c pre req resp post,
    events (watchLock_loop env fuel retries l c) = (pre ++ EvGetObject req resp :: post)%list ->
    get_fails env resp = false ->
    names env (identity l) resp = false ->
    post = [].
Proof.
  induction fuel as [|fuel IH]; intros retries l c pre req resp post;
    cbn [watchLock_loop].
  - cbn. intros H. now destruct pre.
  - rewrite bind_run.
    pose proof (watchLock_turn_foreign env retries l c) as Ht.
    destruct (watchLock_turn_frame env retries l c) as (_ & ((_&_&_&Hid&_) & _) & _).
    cbv zeta in Ht.
    remember (watchLock_turn env retries l c) as t eqn:Et. clear Et.
    destruct Ht as [Hnil|(req0 & resp0 & Hev & Hstop)].
    + destruct (outcome t) as [[|retries']|msg|]; cbn [prepend events];
        rewrite Hnil; run_simpl; cbn [app];
        try (intros H; now destruct pre).
      intros H Hok Hn. rewrite <- Hid in Hn. exact (IH _ _ _ _ _ _ _ H Hok Hn).
    + destruct pre as [|e pre].
      * intros H Hok Hn.
        assert (Hhd : EvGetObject req0 resp0 = EvGetObject req resp /\
                      outcome t = Done Break).
        { destruct (outcome t) as [[|retries']|msg|]; cbn [prepend events] in H;
            rewrite Hev in H; revert H; run_simpl; cbn [app]; intros [= <- <- _];
            (split; [reflexivity|]); auto. }
        destruct Hhd as ([= <- <-] & Hb). rewrite Hb in H.
        cbn [prepend events] in H. rewrite Hev in H. revert H. run_simpl.
        cbn [app]. intros [= <-]. reflexivity.
      * destruct (outcome t) as [[|retries']|msg|]; cbn [prepend events];
          rewrite Hev; run_simpl; cbn [app];
          try (intros [= _ H]; now destruct pre).
        intros [= _ H] Hok Hn. rewrite <- Hid in Hn.
        exact (IH _ _ _ _ _ _ _ H Hok Hn).
Qed.

Lemma watchLock_loop_stops_on_foreign_record_witness :
  tl (events (watchLock_loop usurped 5 0 Scenario.leader Scenario.acquired)) = [].
Proof.
  refine (watchLock_loop_stops_on_foreign_record usurped 5 0 Scenario.leader
            Scenario.acquired []
            Scenario.get_request
            (GetObject_ok (Ok "instance-B") "etag-9") _ _ _ _);
    vm_compute; reflexivity.
Defined.

(** ** Release, and what follows it *)

(** X12 (release keeps the cache).  [Unlock] makes no PUT and leaves
    [lockRecordCache] and the configuration as they were, whatever the
    store answers: the entry that describes the lock as its own outlives the
    release.  So a [writeLock] that follows within the TTL of that entry
    makes no GET, and conditions its PUT on the ETag cached before the
    release. *)
Theorem Unlock_keeps_record_cache env l c :
  let u := Unlock env l c in
  lockRecordCache (final u) = lockRecordCache l /\
  same_config l (final u) /\
  none is_put (events u) /\
  n_put (cursor u) = n_put c /\
  forall lc r,
    lockRecordCache l = Some lc ->
    lockRecord lc = Some r ->
    Identity r = identity l ->
    time.Sub (time_Now env (n_now (cursor u))) (lastUpdate lc) <= ttl l ->
    let w := writeLock env (final u) (cursor u) in
    none is_get (events w) /\
    forall req resp,
      In (EvPutObject req resp) (events w) ->
      (etag lc = "" /\ IfNoneMatch req = Some "*" /\ IfMatch req = None) \/
      (etag lc <> "" /\ IfMatch req = Some (etag lc) /\ IfNoneMatch req = None).
Proof.
  cbv zeta.
  destruct (Unlock_frame env l c) as (Hkinds & (Hcfg & Hcache) & Hput & _).
  split; [exact Hcache|]. split; [exact Hcfg|].
  split; [intros e He; specialize (Hkinds e He); now destruct e|].
  split; [exact Hput|].
  intros lc r Hl Hr Hid Hfresh.
  destruct Hcfg as (_ & _ & _ & Hident & _ & _ & Httl & _).
  eapply writeLock_after_quiet_inspect.
  apply (writeLock_inspect_fresh env _ _ lc r).
  - rewrite Hcache. exact Hl.
  - exact Hr.
  - rewrite Hident. exact Hid.
  - rewrite Httl. exact Hfresh.
Qed.

Lemma Unlock_keeps_record_cache_witness :
  none is_get
    (events (writeLock Scenario.cold
               (final (Unlock Scenario.cold Scenario.leader Scenario.acquired))
               (cursor (Unlock Scenario.cold Scenario.leader Scenario.acquired)))).
Proof.
  destruct (Unlock_keeps_record_cache Scenario.cold Scenario.leader Scenario.acquired)
    as (_ & _ & _ & _ & H).
  refine (proj1 (H (mkLockCache "etag-1" (1 * time.Second)
                      (Some (mkLockRecord "core/lock" "https://10.0.0.1:8200"
                                          "instance-A")))
                   (mkLockRecord "core/lock" "https://10.0.0.1:8200" "instance-A")
                   eq_refl eq_refl eq_refl _)).
  vm_compute. discriminate.
Defined.

Lemma yield_closed env l c :
  stopCh l = closed_chan -> stopped l = true ->
  exists l',
    yield env l c = mkRun (Done tt) l' (bump_yield c) [] /\
    stopCh l' = closed_chan /\ stopped l' = true /\ held l' = held l.
Proof.
  intros Hch Hs. unfold yield. eexists. split; [reflexivity|].
  destruct (other_goroutines env (n_yield c)); cbn; auto.
  unfold foreign_stop. rewrite Hch. auto.
Qed.

(** X13 (the watch loop after a release).  Started, or resumed, on a lock
    whose [stopCh] is already closed and marked stopped (as [Unlock] and a
    surrender leave it), [watchLock] returns at its first test: it makes no
    GET, does not wait for the ticker and does not close the channel a
    second time, whatever the other goroutines do meanwhile. *)
Theorem watchLock_after_release env fuel l c :
  stopCh l = closed_chan -> stopped l = true ->
  let w := watchLock env (S fuel) l c in
  outcome w = Done tt /\ events w = [] /\
  stopCh (final w) = closed_chan /\ stopped (final w) = true /\
  held (final w) = held l /\
  n_select (cursor w) = n_select c /\ n_get (cursor w) = n_get c.
Proof.
  intros Hch Hs. cbv zeta. unfold watchLock. cbn [watchLock_loop].
  unfold watchLock_turn.
  destruct (yield_closed env l c Hch Hs) as (l1 & Hy & Hch1 & Hs1 & Hh1).
  rewrite !bind_assoc. erewrite bind_quiet by exact Hy. run_simpl.
  rewrite Hch1. cbn [is_closed]. run_simpl.
  destruct (yield_closed env l1 (bump_yield c) Hch1 Hs1) as (l2 & Hy2 & Hch2 & Hs2 & Hh2).
  erewrite bind_quiet by exact Hy2. unfold stop. run_simpl.
  rewrite Hs2. cbn [negb]. run_simpl.
  repeat split; try assumption; try reflexivity. congruence.
Qed.

Lemma watchLock_after_release_witness :
  events (watchLock Scenario.cold 1
            (final (Unlock Scenario.cold Scenario.leader Scenario.acquired))
            (cursor (Unlock Scenario.cold Scenario.leader Scenario.acquired))) = [].
Proof.
  refine (proj1 (proj2 (watchLock_after_release Scenario.cold 0
            (final (Unlock Scenario.cold Scenario.leader Scenario.acquired))
            (cursor (Unlock Scenario.cold Scenario.leader Scenario.acquired)) _ _)));
    vm_compute; reflexivity.
Defined.

Lemma watchLock_close_count env fuel l c :
  (count is_close (events (watchLock env fuel l c)) <= 1)%nat.
Proof.
  destruct (watchLock_loop_gets env fuel 0 l c) as (Hgets & _).
  assert (Hnc : count is_close (events (watchLock_loop env fuel 0 l c)) = 0%nat).
  { apply count_none. intros e He. specialize (Hgets e He). now destruct e. }
  unfold watchLock. rewrite bind_run.
  set (r := watchLock_loop env fuel 0 l c) in *.
  destruct (outcome r) as [[]|msg|]; cbn [events]; try lia.
  destruct (yield_run env (final r) (cursor r)) as (l2 & Hy & _).
  erewrite bind_quiet by exact Hy.
  cbn [prepend events]. rewrite count_app, Hnc.
  destruct (stop_events l2 (bump_yield (cursor r))) as [->| ->]; cbn; lia.
Qed.

(** X14 (release after a surrender).  When [watchLock] has returned on a
    held, well-formed lock, the [Unlock] that follows returns without a
    panic and closes nothing: over the two, [stopCh] is closed at most
    once; and the lock ends not held. *)
Theorem Unlock_after_surrender env fuel l c :
  well_formed l = true -> held l = true ->
  let w := watchLock env fuel l c in
  outcome w = Done tt ->
  let u := Unlock env (final w) (cursor w) in
  (exists err, outcome u = Done err) /\
  none is_close (events u) /\
  (count is_close (events w ++ events u) <= 1)%nat /\
  held (final u) = false /\ stopCh (final u) = closed_chan.
Proof.
  intros Hwf Hheld w Hdone u. subst u w.
  destruct (watchLock_well_formed env fuel l c Hwf) as (Hwf1 & Hs1).
  specialize (Hs1 Hdone).
  destruct (watchLock_frame env fuel l c) as (_ & (_ & Hh1) & _).
  rewrite Hheld in Hh1.
  pose proof (watchLock_close_count env fuel l c) as Hcount.
  remember (watchLock env fuel l c) as w eqn:Ew. clear Ew.
  destruct (Unlock_held_run env (final w) (cursor w) Hh1 Hwf1)
    as (err & l' & c' & v & gevs & dels & Hrun & Hh & _ & Hch & _ & Hans & Hdels).
  rewrite Hrun. cbn [outcome final events].
  unfold closes. rewrite Hs1. cbn [app].
  assert (Hnone : none is_close (gevs ++ dels)).
  { apply none_app.
    - intros e He. destruct (get_answer_kinds _ _ _ Hans) as [Hg _].
      inversion Hans; subst; cbn in He; try contradiction;
        destruct He as [<-|[]]; reflexivity.
    - destruct Hdels as [->|(r & tag & req & resp & _ & _ & _ & ->)];
        [apply none_nil|]. intros e [<-|[]]. reflexivity. }
  split; [eauto|]. split; [exact Hnone|].
  split; [|split; assumption].
  rewrite count_app, (count_none _ _ Hnone). lia.
Qed.

Lemma Unlock_after_surrender_witness :
  held (final (Unlock Scenario.partitioned
                 (final (watchLock Scenario.partitioned 10 Scenario.leader
                           Scenario.acquired))
                 (cursor (watchLock Scenario.partitioned 10 Scenario.leader
                            Scenario.acquired)))) = false.
Proof.
  refine (proj1 (proj2 (proj2 (proj2
            (Unlock_after_surrender Scenario.partitioned 10 Scenario.leader
               Scenario.acquired eq_refl eq_refl eq_refl))))).
Defined.

(** ** Lock gives up at the first failed call *)

(** A PUT that the store answers with an error makes [writeLock] return an
    error, whatever the later attempts are answered. *)
Lemma writeLock_put_error env l c req e code :
  In (EvPutObject req (PutObject_err e code)) (events (writeLock env l c)) ->
  exists e', outcome (writeLock env l c) = Done (false, Some e').
Proof.
  destruct (writeLock_run env l c) as (v & l1 & c1 & evs & _ & Hnp & _ & Hw).
  destruct v as [early|snapshot].
  { destruct Hw as [_ ->]. cbn [events]. intros Hin.
    specialize (Hnp _ Hin). discriminate. }
  destruct Hw as (lc & _ & _ & ->).
  destruct (writeLock_put_run env lc l1 c1) as (v & l' & c' & evs' & Hput & _ & Hshape).
  destruct (writeLock_put_cases env lc l1 c1)
    as (v0 & l0 & c0 & evs0 & Hput0 & _ & Hcases).
  rewrite Hput in Hput0. injection Hput0 as <- <- <- <-.
  rewrite Hput. cbn [prepend outcome events]. intros Hin.
  apply in_app_or in Hin as [Hin|Hin]; [specialize (Hnp _ Hin); discriminate|].
  destruct Hcases as [[-> _]|(e' & -> & _)]; [|eauto].
  destruct (json_Marshal env (own_record l1)) as [body|e0];
    [destruct (uuid_GenerateUUID env (n_uuid c1)) as [id|e0]|];
    try (destruct Hshape as [-> _]; contradiction).
  destruct Hshape as [_ Hok]. destruct (Hok eq_refl) as (tag' & -> & _).
  destruct Hin as [[=]|[]].
Qed.

(** A GET that fails ends the inspection phase with an error. *)
Lemma writeLock_inspect_get_error env l c req resp :
  In (EvGetObject req resp) (events (writeLock_inspect env l c)) ->
  get_fails env resp = true ->
  exists e', outcome (writeLock_inspect env l c) = Done (inl (false, Some e')).
Proof.
  unfold writeLock_inspect. run_simpl.
  destruct (cacheNotOwnedOrStale_run env (lockRecordCache l) l c) as (b & c0 & Hc & _).
  erewrite bind_quiet by exact Hc.
  destruct b; run_simpl; [|intros []].
  destruct (writeLock_read_run env (lockRecordCache l) l c0)
    as ([[cur tag] err] & c1 & evs & Hget & _ & _ & Hread).
  destruct (get_error_iff env l c0) as (v' & c1' & evs' & Hget' & Hiff).
  rewrite Hget in Hget'. injection Hget' as <- <- <-.
  rewrite bind_run, Hread. destruct err as [e|]; run_simpl; [eauto|].
  assert (Hno : In (EvGetObject req resp) evs -> get_fails env resp = true -> False).
  { destruct (uuid_GenerateUUID env (n_uuid c0)) as [id|e0].
    - destruct Hiff as (req0 & -> & Hiff). cbn [snd] in Hiff.
      intros [[= _ <-]|[]] Hf. now apply Hiff in Hf.
    - destruct Hiff as [-> _]. intros []. }
  destruct (refreshes (lockRecordCache l) tag); run_simpl.
  - rewrite bind_run, writeLock_gate_run.
    destruct cur as [r|]; run_simpl; [split_ltb; run_simpl|];
      intros Hin Hf; destruct (Hno Hin Hf).
  - destruct (lockRecordCache l) as [lc0|];
      [rewrite bind_run, writeLock_gate_run|];
      destruct cur as [r|]; run_simpl; try split_ltb; run_simpl;
      intros Hin Hf; destruct (Hno Hin Hf).
Qed.

(** A call that the store did not serve makes [writeLock] return an error. *)
Lemma writeLock_failed_call env l c ev :
  In ev (events (writeLock env l c)) -> failed_call env ev = true ->
  exists e', outcome (writeLock env l c) = Done (false, Some e').
Proof.
  intros Hin Hbad.
  destruct ev as [req resp|req [tag|e code]| | | |]; try discriminate.
  2:{ eapply writeLock_put_error. exact Hin. }
  cbn [failed_call] in Hbad.
  pose proof (writeLock_inspect_get_error env l c req resp) as Hi.
  destruct (writeLock_run env l c) as (v & l1 & c1 & evs & Hrun & _ & _ & Hw).
  rewrite Hrun in Hi. cbn [outcome events] in Hi.
  destruct v as [early|snapshot].
  - destruct Hw as [_ Hw]. rewrite Hw in Hin |- *. cbn [outcome events] in *.
    destruct (Hi Hin Hbad) as (e' & [= ->]). eauto.
  - destruct Hw as (lc & _ & _ & Hw). rewrite Hw in Hin.
    destruct (writeLock_put_cases env lc l1 c1) as (v0 & l0 & c0 & evs0 & Hput & Hng & _).
    rewrite Hput in Hin. cbn [prepend events] in Hin.
    apply in_app_or in Hin as [Hin|Hin].
    + destruct (Hi Hin Hbad) as (e' & [=]).
    + specialize (Hng _ Hin). discriminate.
Qed.

Lemma attemptLock_failed_call env fuel : forall l c ev,
  In ev (events (attemptLock env fuel l c)) -> failed_call env ev = true ->
  exists e',
    outcome (attemptLock env fuel l c)
    = Done (false, Some (errwrap_Wrapf "attempt lock: {{err}}" e')).
Proof.
  induction fuel as [|fuel IH]; intros l c ev; cbn [attemptLock].
  - intros [].
  - unfold select_ticker_cancel. rewrite bind_run. cbn [outcome final cursor events].
    destruct (select_wake env (n_select c)); run_simpl; [|intros []].
    pose proof (writeLock_failed_call env l (bump_select c) ev) as Hbad.
    destruct (writeLock_returns env l (bump_select c))
      as ([acquired err] & l' & c' & evs & Hw & _).
    rewrite Hw in Hbad. cbn [outcome events] in Hbad.
    erewrite bind_done by exact Hw. cbv beta iota.
    destruct err as [e|]; run_simpl; [eauto|].
    destruct acquired; cbn [negb]; run_simpl.
    + intros Hin Hf. destruct (Hbad Hin Hf) as (e' & [=]).
    + cbn [prepend outcome events]. intros Hin Hf.
      apply in_app_or in Hin as [Hin|Hin]; [destruct (Hbad Hin Hf) as (e' & [=])|].
      exact (IH _ _ _ Hin Hf).
Qed.

(** X15 (Lock gives up at the first failed call).  When, during [Lock],
    the store answers a PUT with an error (a lost race, 412, as much as a
    5xx or a broken connection), or a GET fails, [Lock] does not wait for
    another tick: it returns that error, wrapped as
    "lock: attempt lock: ...", with a nil channel; the lock is not held, its
    stop channel and mark are untouched and no loop is started. *)
Theorem Lock_Lock_gives_up_on_failed_call env fuel l c ev :
  let r := Lock_Lock env fuel l c in
  In ev (events r) -> failed_call env ev = true ->
  (exists e',
     outcome r = Done (nil_chan,
                       Some (errwrap_Wrapf "lock: {{err}}"
                               (errwrap_Wrapf "attempt lock: {{err}}" e')))) /\
  held (final r) = false /\ stopCh (final r) = stopCh l /\
  stopped (final r) = stopped l /\ none is_go (events r).
Proof.
  cbv zeta. unfold Lock_Lock. run_simpl.
  destruct (held l) eqn:Hheld; run_simpl; [intros []|].
  pose proof (attemptLock_failed_call env fuel l c ev) as Hbad.
  pose proof (attemptLock_same env fuel l c) as Hsame.
  destruct (attemptLock_frame env fuel l c) as (Honly & _).
  apply only_write_no_go in Honly.
  rewrite bind_run.
  remember (attemptLock env fuel l c) as a eqn:Ea. clear Ea.
  assert (Hkeep : held (final a) = held l /\ stopCh (final a) = stopCh l /\
                  stopped (final a) = stopped l).
  { rewrite Hsame. repeat split. }
  destruct Hkeep as (Hh & Hch & Hst).
  destruct (outcome a) as [[acquired err]|msg|] eqn:Ho; cbn [events].
  2,3: intros Hin Hf; destruct (Hbad Hin Hf) as (e' & [=]).
  destruct err as [e|]; run_simpl.
  - intros Hin Hf. destruct (Hbad Hin Hf) as (e' & [= -> ->]).
    split; [eauto|]. rewrite Hh, Hheld. auto.
  - destruct acquired; cbn [negb]; run_simpl.
    + intros Hin Hf. exfalso.
      repeat (apply in_app_or in Hin as [Hin|Hin]);
        try (destruct (Hbad Hin Hf) as (e' & [=]));
        cbn in Hin; repeat (destruct Hin as [<-|Hin]; [discriminate|]); contradiction.
    + intros Hin Hf. destruct (Hbad Hin Hf) as (e' & [=]).
Qed.

Lemma Lock_Lock_gives_up_on_failed_call_witness :
  held (final (Lock_Lock contended 3 Scenario.fresh Scenario.built)) = false /\
  none is_go (events (Lock_Lock contended 3 Scenario.fresh Scenario.built)).
Proof.
  destruct (Lock_Lock_gives_up_on_failed_call contended 3 Scenario.fresh Scenario.built
              (EvPutObject Scenario.first_put
                 (PutObject_err (errors_New "412 Precondition Failed") (Some 412))))
    as (_ & Hh & _ & _ & Hgo).
  - vm_compute. right. left. reflexivity.
  - reflexivity.
  - split; assumption.
Defined.
